(** * CosmicBulkMap: the dipole distance-modulus model and its sky map

    Shallow embedding of the two pieces of numerical logic of
    [notebooks/example_analysis.ipynb]:

    - [dipole_mu_physical] (section 4 of the notebook), the expected distance
      modulus [mu_cosmo(z) + A * cos(angle)];
    - [dipole_map] (section 6 of the notebook), the per-pixel deviation field
      [amp_dipole * cos(angle)].

    Conventions of the embedding.

    - Python floats are read as real numbers ([R]); [np.cos] is [cos].
      Rounding is not modelled: every equation below is an equation between
      reals.
    - astropy and healpy are outside the notebook.  Their entry points are
      the [Variable]s of [Section Notebook]; what is assumed about them is a
      named [Hypothesis] of the section in which it is used.  The pixel
      centres of the HEALPix tessellation, which the mean of the map depends
      on, are written out in [Module Healpix].
    - A Python call can raise and can touch state the notebook does not
      own.  Calls into the libraries therefore live in a state-and-exception
      monad over an abstract [world]; the notebook code threads it in program
      order. *)

From Stdlib Require Import Reals Lra Lia List.
From Stdlib Require Import Permutation Sorted.
Import ListNotations.

Local Open Scope R_scope.

(** ** Values *)

(** [frame=] argument of [SkyCoord]. *)
Inductive Frame : Type :=
| icrs
| galactic.

(** [SkyCoord(l=l*u.deg, b=b*u.deg, frame=...)]: a longitude and a latitude,
    both in degrees, tagged with their frame. *)
Record SkyCoord : Type := mkSkyCoord {
  l_deg : R;
  b_deg : R;
  frame : Frame
}.

(** ** Effects *)

Module Eff.

(** A computation reads and writes a [world] and ends either by raising an
    exception or by returning a value. *)
Definition M (world exn A : Type) : Type := world -> world * (exn + A).

Section Ops.

Context {world exn : Type}.

Definition ret {A} (a : A) : M world exn A :=
  fun w => (w, inr a).

Definition raise {A} (e : exn) : M world exn A :=
  fun w => (w, inl e).

Definition bind {A B} (m : M world exn A) (k : A -> M world exn B)
  : M world exn B :=
  fun w =>
    match m w with
    | (w', inl e) => (w', inl e)
    | (w', inr a) => k a w'
    end.

(** Element-wise application of a scalar call over an array, in index order;
    the first exception aborts the whole call. *)
Fixpoint mapM {A B} (f : A -> M world exn B) (xs : list A)
  : M world exn (list B) :=
  match xs with
  | [] => ret []
  | x :: xs' =>
      bind (f x) (fun y => bind (mapM f xs') (fun ys => ret (y :: ys)))
  end.

(** [m], started in [w], returns [v] (in some final world). *)
Definition returns {A} (m : M world exn A) (w : world) (v : A) : Prop :=
  exists w', m w = (w', inr v).

End Ops.

End Eff.

Import Eff.

Notation "x <- m ;; k" := (bind m (fun x => k))
  (at level 61, m at next level, right associativity).

(** ** The notebook *)

Section Notebook.

Variables world exn : Type.

(** [cosmo.distmod(z).value] for the module-level
    [cosmo = FlatLambdaCDM(H0=67.4, Om0=0.315)]. *)
Variable distmod : R -> M world exn R.

(** [a.separation(b).rad]: the angle between two coordinates, in radians.
    [SkyCoord] objects are plain data here; whatever astropy rejects about a
    coordinate surfaces as an exception of this call, the only place where
    the notebook uses the coordinates. *)
Variable separation : SkyCoord -> SkyCoord -> M world exn R.

(** [hp.nside2npix(NSIDE)]. *)
Variable nside2npix : nat -> nat.

(** [hp.pix2ang(NSIDE, ipix, lonlat=True)] for one pixel index: longitude
    and latitude of the pixel centre, in degrees. *)
Variable pix2ang : nat -> nat -> M world exn (R * R).

(** Cell 4 of the notebook.  The notebook applies it to the columns of its
    five-row table; broadcasting makes that this scalar function on each
    row. *)
Definition dipole_mu_physical (z A l0 b0 l_sn b_sn : R) : M world exn R :=
  (* 1. Calculate the expected distance modulus from Hubble's Law *)
  mu_cosmo <- distmod z ;;
  (* 2. Calculate the angular separation to the dipole axis *)
  let dipole_coord := mkSkyCoord l0 b0 galactic in
  let sn_coords := mkSkyCoord l_sn b_sn galactic in
  angle <- separation sn_coords dipole_coord ;;
  (* 3. The full model is the cosmological mu + the dipole modulation *)
  ret (mu_cosmo + (A * cos angle)).

(** [SkyCoord(l=l_pix_deg*u.deg, b=b_pix_deg*u.deg, frame='galactic')], for
    one pixel. *)
Definition pixel_coord (lb : R * R) : SkyCoord :=
  mkSkyCoord (fst lb) (snd lb) galactic.

(** Cell 6 of the notebook, up to the rendering calls.  The notebook fixes
    [l_dipole_deg = 275.0], [b_dipole_deg = 56.0], [amp_dipole = 0.05] and
    [NSIDE = 32] as module-level constants; they are parameters here, and
    [dipole_map_demo] below is the notebook's instance.  The vectorised calls
    ([hp.pix2ang] on [np.arange(NPIX)], [separation] against an array of
    coordinates, [np.cos] and the product with a scalar) act element by
    element. *)
Definition dipole_map (amp_dipole l_dipole_deg b_dipole_deg : R)
    (NSIDE : nat) : M world exn (list R) :=
  let NPIX := nside2npix NSIDE in
  let pixel_indices := seq 0 NPIX in
  (* Get the Galactic coordinates of each pixel in the map *)
  lb_pix_deg <- mapM (pix2ang NSIDE) pixel_indices ;;
  let '(l_pix_deg, b_pix_deg) := split lb_pix_deg in
  (* Create SkyCoord objects for vectorized calculations *)
  let dipole_coord := mkSkyCoord l_dipole_deg b_dipole_deg galactic in
  let pixel_coords := map pixel_coord (combine l_pix_deg b_pix_deg) in
  (* Calculate the angle between each pixel and the dipole direction *)
  angle <- mapM (separation dipole_coord) pixel_coords ;;
  (* The map is simply the amplitude modulated by the cosine of the angle *)
  ret (map (fun a => amp_dipole * cos a) angle).

Definition dipole_map_demo : M world exn (list R) :=
  dipole_map (5 / 100) 275 56 32.

(** What the specification asks of a negative redshift [z]: evaluation
    raises an exception that counts as [InvalidInput], and it does so with
    the world as it found it, no library call having run. *)
Definition rejects_before_background (InvalidInput : exn -> Prop) (z : R)
  : Prop :=
  forall A l0 b0 l_sn b_sn w,
    exists e, InvalidInput e /\
      dipole_mu_physical z A l0 b0 l_sn b_sn w = (w, inl e).

End Notebook.

Arguments dipole_mu_physical {world exn}.
Arguments dipole_map {world exn}.
Arguments dipole_map_demo {world exn}.
Arguments rejects_before_background {world exn}.

(** ** Vocabulary for what is assumed of the libraries

    None of this is notebook code.  It is the mathematics in which the
    contracts of the geometry and tessellation libraries are stated. *)

(** [np.deg2rad]. *)
Definition deg2rad (x : R) : R := x * PI / 180.

Record Vec3 : Type := mkVec3 { vx : R; vy : R; vz : R }.

(** The point of the unit sphere at longitude [l_deg] and latitude
    [b_deg]. *)
Definition unit_vector (c : SkyCoord) : Vec3 :=
  mkVec3 (cos (deg2rad (b_deg c)) * cos (deg2rad (l_deg c)))
         (cos (deg2rad (b_deg c)) * sin (deg2rad (l_deg c)))
         (sin (deg2rad (b_deg c))).

Definition dot (u v : Vec3) : R :=
  vx u * vx v + vy u * vy v + vz u * vz v.

Definition vadd (u v : Vec3) : Vec3 :=
  mkVec3 (vx u + vx v) (vy u + vy v) (vz u + vz v).

Definition vzero : Vec3 := mkVec3 0 0 0.

Definition vsum (vs : list Vec3) : Vec3 := fold_right vadd vzero vs.

(** The great-circle angle between two directions, in radians. *)
Definition great_circle (a b : SkyCoord) : R :=
  acos (dot (unit_vector a) (unit_vector b)).

(** The opposite point of the sphere. *)
Definition antipode (c : SkyCoord) : SkyCoord :=
  mkSkyCoord (l_deg c + 180) (- b_deg c) (frame c).

(** A sky direction has its latitude between the poles. *)
Definition valid_dir (c : SkyCoord) : Prop := -90 <= b_deg c <= 90.

Definition sum (xs : list R) : R := fold_right Rplus 0 xs.

(** [np.mean]: the plain (unweighted) mean of the cell values.  The mean of
    an empty array is not a number: [None] here. *)
Definition mean (xs : list R) : option R :=
  match xs with
  | [] => None
  | _ :: _ => Some (sum xs / INR (length xs))
  end.

(** ** The tessellation

    Not notebook code: the pixel centres of the HEALPix tessellation in the
    ring scheme, the one [hp.pix2ang] uses unless told otherwise, as
    longitude and latitude in degrees ([lonlat=True]).  Rings are numbered
    [1 .. 4 N - 1] from the north; ring [i] lies at height [ring_z N i] and
    holds [4 * ring_width N i] pixels, evenly spaced in azimuth from
    [ring_phi N i 1]; pixels are numbered ring after ring. *)

Module Healpix.

Definition ring_width (N i : nat) : nat :=
  if (i <? N)%nat then i
  else if (i <=? 3 * N)%nat then N
  else (4 * N - i)%nat.

Definition ring_z (N i : nat) : R :=
  if (i <? N)%nat then 1 - INR i * INR i / (3 * INR N * INR N)
  else if (i <=? 3 * N)%nat then (2 * INR N - INR i) * 2 / (3 * INR N)
  else - (1 - INR (4 * N - i) * INR (4 * N - i) / (3 * INR N * INR N)).

Definition ring_shift (N i : nat) : R :=
  if (i <? N)%nat then 1 / 2
  else if (i <=? 3 * N)%nat then (if Nat.odd (i + N) then 1 else 1 / 2)
  else 1 / 2.

Definition ring_phi (N i j : nat) : R :=
  (INR j - ring_shift N i) * PI / (2 * INR (ring_width N i)).

Definition lonlat (z phi : R) : R * R :=
  (phi * 180 / PI, 90 - acos z * 180 / PI).

Definition ring (N i : nat) : list (R * R) :=
  map (fun j => lonlat (ring_z N i) (ring_phi N i j))
      (seq 1 (4 * ring_width N i)).

Definition centres (N : nat) : list (R * R) :=
  flat_map (ring N) (seq 1 (4 * N - 1)).

Definition centre (N ipix : nat) : R * R := nth ipix (centres N) (0, 0).

End Healpix.

(** ** Stand-ins for the libraries

    Small, total, executable-in-principle replacements for astropy and
    healpy, used to instantiate the statements below.  Their world is the log
    of the library calls made so far. *)

Module Stub.

Inductive call : Type :=
| CallDistmod (z : R)
| CallSeparation (a b : SkyCoord)
| CallPix2ang (NSIDE ipix : nat).

Definition world : Type := list call.

Inductive exn : Type :=
| ValueError.

Definition H0 : R := 674 / 10.

Definition c_km_s : R := 299792458 / 1000.

(** Low-redshift Hubble law: luminosity distance [c z / H0] in Mpc, and
    [5 log10 d + 25].  Defined (as Rocq's [ln] is) at every real. *)
Definition mu (z : R) : R := 5 * (ln (c_km_s * z / H0) / ln 10) + 25.

Definition distmod (z : R) : M world exn R :=
  fun w => (w ++ [CallDistmod z], inr (mu z)).

Definition in_range (x : R) : bool :=
  if Rle_dec (-90) x then if Rle_dec x 90 then true else false else false.

(** Great-circle separation; a latitude beyond a pole is refused. *)
Definition separation (a b : SkyCoord) : M world exn R :=
  fun w =>
    (w ++ [CallSeparation a b],
     if (in_range (b_deg a) && in_range (b_deg b))%bool
     then inr (great_circle a b)
     else inl ValueError).

Definition nside2npix (NSIDE : nat) : nat := 12 * NSIDE * NSIDE.

(** Latitude of the two polar rings of base pixels, in degrees. *)
Definition b_cap : R := asin (2 / 3) * 180 / PI.

(** Centres of the twelve base pixels of the HEALPix tessellation, ring by
    ring from the north. *)
Definition base_centre (k : nat) : R * R :=
  match k with
  | 0%nat => (45, b_cap)
  | 1%nat => (135, b_cap)
  | 2%nat => (225, b_cap)
  | 3%nat => (315, b_cap)
  | 4%nat => (0, 0)
  | 5%nat => (90, 0)
  | 6%nat => (180, 0)
  | 7%nat => (270, 0)
  | 8%nat => (45, - b_cap)
  | 9%nat => (135, - b_cap)
  | 10%nat => (225, - b_cap)
  | _ => (315, - b_cap)
  end.

(** The stand-in tessellation cycles through the base pixels. *)
Definition centre (NSIDE ipix : nat) : R * R := base_centre (ipix mod 12).

Definition pix2ang (NSIDE ipix : nat) : M world exn (R * R) :=
  fun w => (w ++ [CallPix2ang NSIDE ipix], inr (centre NSIDE ipix)).

End Stub.

(** ** The rest of the notebook *)

(** *** Cell 2: the toy table *)

(** Columns [z] and [MU] of [pantheon_data]. *)
Definition pantheon_z : list R :=
  [21 / 1000; 15 / 1000; 52 / 1000; 4 / 1000; 26 / 1000].

Definition pantheon_MU : list R :=
  [3486 / 100; 3402 / 100; 3684 / 100; 3151 / 100; 3521 / 100].

(** *** Cell 4: the model curve of the Hubble diagram *)

(** [xs[idx]] and [xs.iloc[idx]] for an array [idx] of positions: the
    elements at these positions, in the order of [idx].  A position past the
    end is an [IndexError], [None] here. *)
Fixpoint take {A : Type} (xs : list A) (idx : list nat) : option (list A) :=
  match idx with
  | [] => Some []
  | i :: idx' =>
      match nth_error xs i, take xs idx' with
      | Some x, Some ys => Some (x :: ys)
      | _, _ => None
      end
  end.

Section HubbleDiagram.

(** [np.argsort]. *)
Variable argsort : list R -> list nat.

(** [z_sorted] and [mu_model_sorted], the two coordinates of the red line:
    both columns are reordered by the one index array
    [z_sorted_indices = np.argsort(pantheon_data['z'])]. *)
Definition sorted_model_curve (z mu_model : list R)
  : option (list R * list R) :=
  let z_sorted_indices := argsort z in
  match take z z_sorted_indices, take mu_model z_sorted_indices with
  | Some z_sorted, Some mu_model_sorted => Some (z_sorted, mu_model_sorted)
  | _, _ => None
  end.

End HubbleDiagram.

(** *** Cells 3 and 5: where a direction is drawn on the Mollweide axes *)

Section Figures.

(** [Longitude.wrap_at(wrap_angle)], both in degrees. *)
Variable wrap_at : R -> R -> R.

(** Cell 3: [(l, b)] handed to [ax.scatter] for a supernova at Galactic
    longitude [l_gal] and latitude [b_gal] (degrees):
    [coords.galactic.l.wrap_at(180*u.deg).radian] and
    [coords.galactic.b.radian]. *)
Definition sn_plot_position (l_gal b_gal : R) : R * R :=
  (deg2rad (wrap_at 180 l_gal), deg2rad b_gal).

End Figures.

(** Cell 5: [(l_rad, b_rad)] handed to [ax.scatter] for an entry [d] of
    [dipoles]: [np.deg2rad(d["l"] - 180)] and [np.deg2rad(d["b"])]. *)
Definition dipole_plot_position (d_l d_b : R) : R * R :=
  (deg2rad (d_l - 180), deg2rad d_b).

(** *** Cell 6: the marker of the dipole direction *)

(** The two angles handed to [hp.projplot]:
    [np.deg2rad(90 - b_dipole_deg)] (theta = 90 - latitude) and
    [np.deg2rad(l_dipole_deg)] (phi = longitude). *)
Definition marker_position (l_dipole_deg b_dipole_deg : R) : R * R :=
  (deg2rad (90 - b_dipole_deg), deg2rad l_dipole_deg).

(** Not notebook code: the point of the unit sphere at colatitude [theta]
    and longitude [phi] (radians), the convention of healpy's angles. *)
Definition ang2vec (theta phi : R) : Vec3 :=
  mkVec3 (sin theta * cos phi) (sin theta * sin phi) (cos theta).

(** *** Stand-ins for the figures *)

Module HealpixStub.

(** The tessellation library on the HEALPix centres, logging its calls. *)
Definition pix2ang (NSIDE ipix : nat) : M Stub.world Stub.exn (R * R) :=
  fun w => (w ++ [Stub.CallPix2ang NSIDE ipix], inr (Healpix.centre NSIDE ipix)).

End HealpixStub.

Module FigureStub.

(** Wrapping into [[wrap_angle - 360, wrap_angle)]. *)
Definition wrap_at (wrap_angle l : R) : R :=
  l - 360 * IZR (Int_part ((l - wrap_angle) / 360) + 1).

(** A canned answer: the positions of [pantheon_z] in increasing order. *)
Definition argsort (zs : list R) : list nat := [3; 1; 0; 4; 2]%nat.

End FigureStub.

(** * Facts *)

(** ** Stepping through the monad *)

Section MonadFacts.

Context {world exn : Type}.

Lemma bind_inr {A B} (m : M world exn A) (k : A -> M world exn B) w w' a :
  m w = (w', inr a) -> bind m k w = k a w'.
Proof. intros H. unfold bind. rewrite H. reflexivity. Qed.

Lemma bind_inl {A B} (m : M world exn A) (k : A -> M world exn B) w w' e :
  m w = (w', inl e) -> bind m k w = (w', inl e).
Proof. intros H. unfold bind. rewrite H. reflexivity. Qed.

Lemma bind_inr_inv {A B} (m : M world exn A) (k : A -> M world exn B)
    w w' b :
  bind m k w = (w', inr b) ->
  exists w1 a, m w = (w1, inr a) /\ k a w1 = (w', inr b).
Proof.
  unfold bind. destruct (m w) as [w1 [e | a]]; intros H.
  - discriminate.
  - exists w1, a. split; [reflexivity | exact H].
Qed.

Lemma returns_bind {A B} (m : M world exn A) (k : A -> M world exn B)
    w a b :
  returns m w a -> (forall w1, returns (k a) w1 b) -> returns (bind m k) w b.
Proof.
  intros [w1 Hm] Hk. destruct (Hk w1) as [w2 Hk2].
  exists w2. rewrite (bind_inr _ _ _ _ _ Hm). exact Hk2.
Qed.

Lemma returns_ret {A} (a : A) (w : world) : returns (exn := exn) (ret a) w a.
Proof. exists w. reflexivity. Qed.

Lemma returns_inj {A} (m : M world exn A) w v1 v2 :
  returns m w v1 -> returns m w v2 -> v1 = v2.
Proof. intros [w1 H1] [w2 H2]. congruence. Qed.

(** A vectorised call returns when each of its scalar calls does. *)
Lemma mapM_returns {A B} (f : A -> M world exn B) (g : A -> B) xs :
  (forall x, In x xs -> forall w, returns (f x) w (g x)) ->
  forall w, returns (mapM f xs) w (map g xs).
Proof.
  induction xs as [| x xs IH]; intros Hf w; simpl.
  - apply returns_ret.
  - apply returns_bind with (a := g x).
    + apply Hf. left. reflexivity.
    + intros w1. apply returns_bind with (a := map g xs).
      * apply IH. intros y Hy. apply Hf. right. exact Hy.
      * intros w2. apply returns_ret.
Qed.

(** Every element a vectorised call returns was returned by a scalar
    call. *)
Lemma mapM_inr_inv {A B} (f : A -> M world exn B) xs :
  forall w w' ys,
    mapM f xs w = (w', inr ys) ->
    Forall2 (fun x y => exists w1 w2, f x w1 = (w2, inr y)) xs ys.
Proof.
  induction xs as [| x xs IH]; intros w w' ys H; simpl in H.
  - unfold ret in H. inversion H. constructor.
  - apply bind_inr_inv in H. destruct H as (w1 & y & Hy & H).
    apply bind_inr_inv in H. destruct H as (w2 & ys' & Hys & H).
    unfold ret in H. inversion H. subst. constructor.
    + exists w, w1. exact Hy.
    + apply (IH _ _ _ Hys).
Qed.

End MonadFacts.

(** ** Geometry of the unit sphere *)

Lemma deg2rad_plus_180 x : deg2rad (x + 180) = deg2rad x + PI.
Proof. unfold deg2rad. field. Qed.

Lemma deg2rad_opp x : deg2rad (- x) = - deg2rad x.
Proof. unfold deg2rad. field. Qed.

Lemma unit_vector_norm c : dot (unit_vector c) (unit_vector c) = 1.
Proof.
  unfold dot, unit_vector; simpl.
  pose proof (sin2_cos2 (deg2rad (b_deg c))) as Hb.
  pose proof (sin2_cos2 (deg2rad (l_deg c))) as Hl.
  unfold Rsqr in Hb, Hl.
  set (sb := sin (deg2rad (b_deg c))) in *.
  set (cb := cos (deg2rad (b_deg c))) in *.
  set (sl := sin (deg2rad (l_deg c))) in *.
  set (cl := cos (deg2rad (l_deg c))) in *.
  replace (cb * cl * (cb * cl) + cb * sl * (cb * sl) + sb * sb)
    with (cb * cb * (sl * sl + cl * cl) + sb * sb) by ring.
  rewrite Hl. lra.
Qed.

(** Cauchy-Schwarz for unit vectors, from Lagrange's identity. *)
Lemma dot_unit_bound u v :
  dot u u = 1 -> dot v v = 1 -> -1 <= dot u v <= 1.
Proof.
  destruct u as [a b c], v as [d e f]. unfold dot; simpl. intros Hu Hv.
  assert (H : (a * d + b * e + c * f) * (a * d + b * e + c * f) <= 1).
  { assert (L : (a * a + b * b + c * c) * (d * d + e * e + f * f)
                - (a * d + b * e + c * f) * (a * d + b * e + c * f)
                = (b * f - c * e) * (b * f - c * e)
                  + (c * d - a * f) * (c * d - a * f)
                  + (a * e - b * d) * (a * e - b * d)) by ring.
    rewrite Hu, Hv in L.
    pose proof (Rle_0_sqr (b * f - c * e)) as H1.
    pose proof (Rle_0_sqr (c * d - a * f)) as H2.
    pose proof (Rle_0_sqr (a * e - b * d)) as H3.
    unfold Rsqr in H1, H2, H3. lra. }
  nra.
Qed.

Lemma dot_comm u v : dot u v = dot v u.
Proof. unfold dot. ring. Qed.

Lemma unit_vector_antipode c :
  unit_vector (antipode c)
  = mkVec3 (- vx (unit_vector c)) (- vy (unit_vector c))
           (- vz (unit_vector c)).
Proof.
  unfold unit_vector, antipode; simpl.
  rewrite deg2rad_plus_180, deg2rad_opp.
  rewrite cos_neg, sin_neg, neg_cos, neg_sin.
  f_equal; ring.
Qed.

(** The separation is an angle between 0 and pi. *)
Lemma great_circle_range a b : 0 <= great_circle a b <= PI.
Proof.
  unfold great_circle. apply acos_bound.
Qed.

Lemma great_circle_sym a b : great_circle a b = great_circle b a.
Proof. unfold great_circle. rewrite dot_comm. reflexivity. Qed.

Lemma great_circle_refl a : great_circle a a = 0.
Proof. unfold great_circle. rewrite unit_vector_norm. apply acos_1. Qed.

Lemma dot_opp_r u v :
  dot u (mkVec3 (- vx v) (- vy v) (- vz v)) = - dot u v.
Proof. unfold dot; simpl. ring. Qed.

Lemma great_circle_antipode a : great_circle a (antipode a) = PI.
Proof.
  unfold great_circle.
  rewrite unit_vector_antipode, dot_opp_r, unit_vector_norm.
  rewrite acos_opp, acos_1. lra.
Qed.

(** The cosine of the separation is the scalar product of the two unit
    vectors. *)
Lemma cos_great_circle a b :
  cos (great_circle a b) = dot (unit_vector a) (unit_vector b).
Proof.
  unfold great_circle. apply cos_acos.
  apply dot_unit_bound; apply unit_vector_norm.
Qed.

Lemma sum_map_scal (A : R) (f : nat -> R) (xs : list nat) :
  sum (map (fun i => A * f i) xs) = A * sum (map f xs).
Proof.
  induction xs as [| x xs IH]; simpl.
  - ring.
  - unfold sum in *; simpl. rewrite IH. ring.
Qed.

(** Summing scalar products against a fixed vector is the scalar product
    with the sum. *)
Lemma sum_map_dot (u : Vec3) (vs : list Vec3) :
  sum (map (dot u) vs) = dot u (vsum vs).
Proof.
  induction vs as [| v vs IH]; simpl.
  - unfold sum, dot; simpl. ring.
  - unfold sum in *; simpl. rewrite IH. unfold dot; simpl. ring.
Qed.

Lemma nth_map_seq (f : nat -> R) (n i : nat) (d : R) :
  (i < n)%nat -> nth i (map f (seq 0 n)) d = f i.
Proof.
  intros Hi. rewrite (nth_indep _ d (f 0%nat)).
  - rewrite (map_nth f (seq 0 n) 0%nat i), seq_nth by exact Hi. reflexivity.
  - rewrite length_map, length_seq. exact Hi.
Qed.

Lemma amplitude_cos_bound (A theta : R) :
  - Rabs A <= A * cos theta <= Rabs A.
Proof.
  pose proof (COS_bound theta) as [Hlo Hhi].
  unfold Rabs. destruct (Rcase_abs A); nra.
Qed.

(** ** More geometry: periods, shifts and opposite points *)

(** The spherical law of cosines. *)
Lemma dot_unit_vector a b :
  dot (unit_vector a) (unit_vector b)
  = cos (deg2rad (b_deg a)) * cos (deg2rad (b_deg b))
    * cos (deg2rad (l_deg a) - deg2rad (l_deg b))
    + sin (deg2rad (b_deg a)) * sin (deg2rad (b_deg b)).
Proof. unfold dot, unit_vector; simpl. rewrite cos_minus. ring. Qed.

Lemma cos_period_Z x (k : Z) : cos (x + 2 * IZR k * PI) = cos x.
Proof.
  destruct k as [| p | p].
  - replace (x + 2 * 0 * PI) with x by ring. reflexivity.
  - rewrite <- (cos_period x (Pos.to_nat p)).
    rewrite INR_IZR_INZ, Znat.positive_nat_Z. reflexivity.
  - rewrite <- (cos_period (x + 2 * IZR (Z.neg p) * PI) (Pos.to_nat p)).
    rewrite INR_IZR_INZ, Znat.positive_nat_Z.
    change (Z.neg p) with (- Z.pos p)%Z. rewrite opp_IZR.
    f_equal. ring.
Qed.

Lemma deg2rad_plus x y : deg2rad (x + y) = deg2rad x + deg2rad y.
Proof. unfold deg2rad. field. Qed.

Lemma deg2rad_turns (k : Z) : deg2rad (360 * IZR k) = 2 * IZR k * PI.
Proof. unfold deg2rad. field. Qed.

(** A longitude counts modulo 360 degrees. *)
Lemma great_circle_lon_period l b f c (k : Z) :
  great_circle (mkSkyCoord (l + 360 * IZR k) b f) c
  = great_circle (mkSkyCoord l b f) c.
Proof.
  unfold great_circle. rewrite !dot_unit_vector; simpl.
  rewrite deg2rad_plus, deg2rad_turns.
  replace (deg2rad l + 2 * IZR k * PI - deg2rad (l_deg c))
    with (deg2rad l - deg2rad (l_deg c) + 2 * IZR k * PI) by ring.
  rewrite cos_period_Z. reflexivity.
Qed.

(** Only the difference of the two longitudes matters. *)
Lemma great_circle_lon_shift l1 b1 f1 l2 b2 f2 d :
  great_circle (mkSkyCoord (l1 + d) b1 f1) (mkSkyCoord (l2 + d) b2 f2)
  = great_circle (mkSkyCoord l1 b1 f1) (mkSkyCoord l2 b2 f2).
Proof.
  unfold great_circle. rewrite !dot_unit_vector; simpl.
  rewrite !deg2rad_plus.
  replace (deg2rad l1 + deg2rad d - (deg2rad l2 + deg2rad d))
    with (deg2rad l1 - deg2rad l2) by ring.
  reflexivity.
Qed.

Lemma cos_great_circle_antipode_r a b :
  cos (great_circle a (antipode b)) = - cos (great_circle a b).
Proof.
  rewrite !cos_great_circle, unit_vector_antipode, dot_opp_r. reflexivity.
Qed.

(** Two directions at separation pi are opposite points: every third
    direction sees them under supplementary angles. *)
Lemma great_circle_PI_opposite a b :
  great_circle a b = PI ->
  forall d, cos (great_circle d b) = - cos (great_circle d a).
Proof.
  intros H d.
  pose proof (cos_great_circle a b) as Hab. rewrite H, cos_PI in Hab.
  pose proof (unit_vector_norm a) as Na.
  pose proof (unit_vector_norm b) as Nb.
  rewrite !cos_great_circle.
  destruct (unit_vector a) as [ax ay az], (unit_vector b) as [bx by_ bz],
           (unit_vector d) as [dx dy dz].
  unfold dot in *; simpl in *.
  assert (S : (ax + bx) * (ax + bx) + (ay + by_) * (ay + by_)
              + (az + bz) * (az + bz) = 0) by lra.
  pose proof (Rle_0_sqr (ax + bx)) as Px.
  pose proof (Rle_0_sqr (ay + by_)) as Py.
  pose proof (Rle_0_sqr (az + bz)) as Pz.
  unfold Rsqr in Px, Py, Pz.
  assert (Zx : ax + bx = 0) by (apply Rsqr_0_uniq; unfold Rsqr; lra).
  assert (Zy : ay + by_ = 0) by (apply Rsqr_0_uniq; unfold Rsqr; lra).
  assert (Zz : az + bz = 0) by (apply Rsqr_0_uniq; unfold Rsqr; lra).
  replace bx with (- ax) by lra. replace by_ with (- ay) by lra.
  replace bz with (- az) by lra. ring.
Qed.

(** ** Indexing by an array of positions *)

Lemma take_in_range {A} (xs : list A) (d : A) idx :
  (forall i, In i idx -> (i < length xs)%nat) ->
  take xs idx = Some (map (fun i => nth i xs d) idx).
Proof.
  induction idx as [| i idx IH]; intros H; simpl.
  - reflexivity.
  - rewrite (nth_error_nth' xs d) by (apply H; left; reflexivity).
    rewrite IH by (intros j Hj; apply H; right; exact Hj).
    reflexivity.
Qed.

Lemma take_out_of_range {A} (xs : list A) idx i :
  In i idx -> (length xs <= i)%nat -> take xs idx = None.
Proof.
  induction idx as [| j idx IH]; intros Hin Hi; simpl.
  - destruct Hin.
  - destruct Hin as [-> | Hin].
    + apply nth_error_None in Hi. rewrite Hi. reflexivity.
    + rewrite (IH Hin Hi). destruct (nth_error xs j); reflexivity.
Qed.

Lemma map_nth_seq_all {A} (xs : list A) (d : A) :
  map (fun i => nth i xs d) (seq 0 (length xs)) = xs.
Proof.
  apply nth_ext with (d := d) (d' := d).
  - rewrite length_map, length_seq. reflexivity.
  - intros n Hn. rewrite length_map, length_seq in Hn.
    rewrite (nth_indep _ d (nth 0 xs d))
      by (rewrite length_map, length_seq; exact Hn).
    rewrite (map_nth (fun i => nth i xs d) (seq 0 (length xs)) 0%nat n).
    rewrite seq_nth by exact Hn. reflexivity.
Qed.

(** ** Sums *)

Lemma sum_app xs ys : sum (xs ++ ys) = sum xs + sum ys.
Proof.
  unfold sum. induction xs as [| x xs IH]; simpl; [ring | rewrite IH; ring].
Qed.

Lemma sum_map_opp {A} (g : A -> R) xs :
  sum (map (fun x => - g x) xs) = - sum (map g xs).
Proof.
  unfold sum. induction xs as [| x xs IH]; simpl; [ring | rewrite IH; ring].
Qed.

Lemma sum_map_const {A} (c : R) (xs : list A) :
  sum (map (fun _ => c) xs) = INR (length xs) * c.
Proof.
  unfold sum. induction xs as [| x xs IH].
  - simpl. ring.
  - change (length (x :: xs)) with (S (length xs)). rewrite S_INR.
    simpl. rewrite IH. ring.
Qed.

Lemma sum_rev xs : sum (rev xs) = sum xs.
Proof.
  induction xs as [| x xs IH]; simpl; [reflexivity |].
  rewrite sum_app, IH. unfold sum; simpl. ring.
Qed.

Lemma seq_shift_by (h a n : nat) :
  seq (a + h) n = map (fun j => (j + h)%nat) (seq a n).
Proof.
  revert a. induction n as [| n IH]; intros a; simpl; [reflexivity |].
  f_equal. apply (IH (S a)).
Qed.

(** A sequence that changes sign after [h] steps sums to zero over [2 h]
    steps. *)
Lemma sum_antiperiodic (g : nat -> R) (h a : nat) :
  (forall j, g (j + h)%nat = - g j) ->
  sum (map g (seq a (h + h))) = 0.
Proof.
  intros Hg. rewrite seq_app, map_app, sum_app.
  rewrite seq_shift_by, map_map.
  rewrite (map_ext (fun j => g (j + h)%nat) (fun j => - g j))
    by (intros j; apply Hg).
  rewrite sum_map_opp. ring.
Qed.

Lemma rev_seq_1 n :
  rev (seq 1 n) = map (fun i => (n + 1 - i)%nat) (seq 1 n).
Proof.
  apply nth_ext with (d := 0%nat) (d' := (n + 1 - 0)%nat).
  - rewrite length_rev, length_map. reflexivity.
  - intros k Hk. rewrite length_rev, length_seq in Hk.
    rewrite rev_nth by (rewrite length_seq; exact Hk).
    rewrite length_seq.
    rewrite (map_nth (fun i => (n + 1 - i)%nat) (seq 1 n) 0%nat k).
    rewrite !seq_nth by lia. lia.
Qed.

(** A sequence that is odd about the middle of [1 .. n] sums to zero. *)
Lemma sum_mirror (f : nat -> R) (n : nat) :
  (forall i, (1 <= i <= n)%nat -> f (n + 1 - i)%nat = - f i) ->
  sum (map f (seq 1 n)) = 0.
Proof.
  intros Hf.
  assert (E : sum (map f (seq 1 n)) = - sum (map f (seq 1 n))).
  { rewrite <- (sum_rev (map f (seq 1 n))) at 1.
    rewrite <- map_rev, rev_seq_1, map_map, <- sum_map_opp.
    f_equal. apply map_ext_in. intros i Hi. apply in_seq in Hi.
    apply Hf. lia. }
  lra.
Qed.

Lemma sum_flat_map {A B} (f : B -> R) (g : A -> list B) xs :
  sum (map f (flat_map g xs)) = sum (map (fun x => sum (map f (g x))) xs).
Proof.
  induction xs as [| x xs IH]; simpl; [reflexivity |].
  rewrite map_app, sum_app, IH. unfold sum at 3; simpl. reflexivity.
Qed.

Lemma sum_map_zero {A} (f : A -> R) xs :
  (forall x, In x xs -> f x = 0) -> sum (map f xs) = 0.
Proof.
  unfold sum. induction xs as [| x xs IH]; intros H; simpl; [reflexivity |].
  rewrite (H x) by (left; reflexivity).
  rewrite IH by (intros y Hy; apply H; right; exact Hy). ring.
Qed.

Lemma vsum_components vs :
  vsum vs = mkVec3 (sum (map vx vs)) (sum (map vy vs)) (sum (map vz vs)).
Proof.
  unfold vsum, sum. induction vs as [| v vs IH]; simpl; [reflexivity |].
  rewrite IH. reflexivity.
Qed.

(** ** The HEALPix centres *)

Module HealpixFacts.

Import Healpix.

Lemma ring_width_mirror N i :
  (1 <= i <= 4 * N - 1)%nat ->
  ring_width N (4 * N - i) = ring_width N i.
Proof.
  intros Hi. unfold ring_width.
  destruct (Nat.ltb_spec i N), (Nat.ltb_spec (4 * N - i) N);
    destruct (Nat.leb_spec i (3 * N)), (Nat.leb_spec (4 * N - i) (3 * N));
    lia.
Qed.

Lemma ring_z_mirror N i :
  (1 <= i <= 4 * N - 1)%nat ->
  ring_z N (4 * N - i) = - ring_z N i.
Proof.
  intros Hi. unfold ring_z.
  destruct (Nat.ltb_spec i N), (Nat.ltb_spec (4 * N - i) N);
    destruct (Nat.leb_spec i (3 * N)), (Nat.leb_spec (4 * N - i) (3 * N));
    try lia.
  all: try (replace (4 * N - (4 * N - i))%nat with i by lia; reflexivity).
  all: try ring.
  rewrite minus_INR by lia. rewrite mult_INR. simpl (INR 4).
  field. apply not_0_INR. lia.
Qed.

Lemma sum_4_increasing (n a : nat) :
  (list_sum (map (fun i => 4 * i) (seq a n)) + 2 * n
   = 4 * a * n + 2 * n * n)%nat.
Proof.
  revert a. induction n as [| n IH]; intros a; [simpl; lia |].
  cbn [seq map]. specialize (IH (S a)).
  unfold list_sum in *. cbn [fold_right].
  set (s := fold_right Nat.add 0%nat
              (map (fun i => (4 * i)%nat) (seq (S a) n))) in *.
  clearbody s. nia.
Qed.

Lemma sum_4_decreasing (n a : nat) :
  (list_sum (map (fun i => 4 * (a + n - i)) (seq a n))
   = 2 * n * (n + 1))%nat.
Proof.
  revert a. induction n as [| n IH]; intros a; [reflexivity |].
  cbn [seq map].
  rewrite (map_ext_in _ (fun i => 4 * (S a + n - i))%nat)
    by (intros i _; f_equal; lia).
  change (list_sum (?x :: ?l)) with (x + list_sum l)%nat.
  rewrite IH. replace (a + S n - a)%nat with (S n) by lia. nia.
Qed.

Lemma list_sum_const {A} (c : nat) (xs : list A) :
  list_sum (map (fun _ => c) xs) = (length xs * c)%nat.
Proof.
  induction xs as [| x xs IH]; [reflexivity |].
  cbn [map length]. change (list_sum (?y :: ?l)) with (y + list_sum l)%nat.
  rewrite IH. lia.
Qed.

(** There are [12 N^2] pixels. *)
Lemma length_centres N : length (centres N) = (12 * N * N)%nat.
Proof.
  unfold centres. rewrite length_flat_map.
  rewrite (map_ext _ (fun i => 4 * ring_width N i)%nat)
    by (intros i; unfold ring; rewrite length_map, length_seq; reflexivity).
  destruct N as [| n]; [reflexivity |].
  replace (4 * S n - 1)%nat with (n + ((2 * S n + 1) + n))%nat by lia.
  rewrite (seq_app n (2 * S n + 1 + n) 1), (seq_app (2 * S n + 1) n (1 + n)).
  rewrite !map_app, !list_sum_app.
  rewrite (map_ext_in _ (fun i => 4 * i)%nat (seq 1 n)).
  2:{ intros i Hi. apply in_seq in Hi. unfold ring_width.
      destruct (Nat.ltb_spec i (S n)); [reflexivity | lia]. }
  rewrite (map_ext_in _ (fun _ => 4 * S n)%nat (seq (1 + n) _)).
  2:{ intros i Hi. apply in_seq in Hi. unfold ring_width.
      destruct (Nat.ltb_spec i (S n)); [lia |].
      destruct (Nat.leb_spec i (3 * S n)); [reflexivity | lia]. }
  rewrite (map_ext_in _ (fun i => 4 * (1 + n + (2 * S n + 1) + n - i))%nat
             (seq (1 + n + (2 * S n + 1)) n)).
  2:{ intros i Hi. apply in_seq in Hi. unfold ring_width.
      destruct (Nat.ltb_spec i (S n)); [lia |].
      destruct (Nat.leb_spec i (3 * S n)); [lia |]. f_equal. lia. }
  rewrite sum_4_decreasing.
  pose proof (sum_4_increasing n 1) as H1.
  rewrite list_sum_const, length_seq. nia.
Qed.

(** The unit vector of a pixel centre, from its height [z] and azimuth
    [phi]. *)
Lemma unit_vector_lonlat z phi :
  unit_vector (pixel_coord (lonlat z phi))
  = mkVec3 (sin (acos z) * cos phi) (sin (acos z) * sin phi) (cos (acos z)).
Proof.
  unfold unit_vector, pixel_coord, lonlat; simpl.
  assert (Ephi : deg2rad (phi * 180 / PI) = phi)
    by (unfold deg2rad; field; apply PI_neq0).
  assert (Elat : deg2rad (90 - acos z * 180 / PI) = PI / 2 - acos z)
    by (unfold deg2rad; field; apply PI_neq0).
  rewrite Ephi, Elat, cos_shift, sin_shift. reflexivity.
Qed.

Lemma ring_phi_half_turn N i j :
  (0 < ring_width N i)%nat ->
  ring_phi N i (j + 2 * ring_width N i) = ring_phi N i j + PI.
Proof.
  intros Hm. unfold ring_phi. rewrite plus_INR, mult_INR. simpl (INR 2).
  assert (INR (ring_width N i) <> 0) by (apply not_0_INR; lia).
  field. assumption.
Qed.

Lemma cos_acos_opp z : cos (acos (- z)) = - cos (acos z).
Proof. rewrite acos_opp, cos_minus, cos_PI, sin_PI. ring. Qed.

(** The pixel centres balance: their unit vectors sum to zero. *)
Lemma centres_balanced N :
  vsum (map (fun c => unit_vector (pixel_coord c)) (centres N)) = vzero.
Proof.
  rewrite vsum_components. rewrite !map_map. unfold centres, vzero.
  f_equal.
  - rewrite sum_flat_map. apply sum_map_zero. intros i _.
    unfold ring. rewrite map_map.
    rewrite (map_ext _ (fun j => sin (acos (ring_z N i))
                                 * cos (ring_phi N i j)))
      by (intros j; rewrite unit_vector_lonlat; reflexivity).
    destruct (ring_width N i) as [| m] eqn:Em; [reflexivity |].
    replace (4 * S m)%nat with (2 * S m + 2 * S m)%nat by lia.
    apply sum_antiperiodic. intros j.
    rewrite <- Em, ring_phi_half_turn by lia. rewrite neg_cos. ring.
  - rewrite sum_flat_map. apply sum_map_zero. intros i _.
    unfold ring. rewrite map_map.
    rewrite (map_ext _ (fun j => sin (acos (ring_z N i))
                                 * sin (ring_phi N i j)))
      by (intros j; rewrite unit_vector_lonlat; reflexivity).
    destruct (ring_width N i) as [| m] eqn:Em; [reflexivity |].
    replace (4 * S m)%nat with (2 * S m + 2 * S m)%nat by lia.
    apply sum_antiperiodic. intros j.
    rewrite <- Em, ring_phi_half_turn by lia. rewrite neg_sin. ring.
  - rewrite sum_flat_map.
    rewrite (map_ext _ (fun i => INR (4 * ring_width N i)
                                 * cos (acos (ring_z N i)))).
    2:{ intros i. unfold ring. rewrite map_map.
        rewrite (map_ext _ (fun _ => cos (acos (ring_z N i))))
          by (intros j; rewrite unit_vector_lonlat; reflexivity).
        rewrite sum_map_const, length_seq. reflexivity. }
    apply sum_mirror. intros i Hi.
    replace (4 * N - 1 + 1 - i)%nat with (4 * N - i)%nat by lia.
    rewrite ring_width_mirror, ring_z_mirror by lia.
    rewrite cos_acos_opp. ring.
Qed.

Lemma healpix_centre_valid N i : valid_dir (pixel_coord (centre N i)).
Proof.
  unfold centre.
  assert (G : forall c, In c (centres N) -> valid_dir (pixel_coord c)).
  { intros c Hc. unfold centres in Hc. apply in_flat_map in Hc.
    destruct Hc as (r & _ & Hc). unfold ring in Hc.
    apply in_map_iff in Hc. destruct Hc as (j & <- & _).
    unfold valid_dir, pixel_coord, lonlat; simpl.
    pose proof (acos_bound (ring_z N r)) as [H0 H1].
    pose proof PI_RGT_0 as P.
    assert (E : acos (ring_z N r) * 180 / PI
                = acos (ring_z N r) / PI * 180) by (field; lra).
    rewrite E.
    assert (0 <= acos (ring_z N r) / PI <= 1).
    { split.
      - apply Rmult_le_reg_r with PI; [lra |].
        unfold Rdiv. rewrite Rmult_assoc, Rinv_l by lra. lra.
      - apply Rmult_le_reg_r with PI; [lra |].
        unfold Rdiv. rewrite Rmult_assoc, Rinv_l by lra. lra. }
    lra. }
  destruct (nth_in_or_default i (centres N) (0, 0)) as [H | H].
  - apply G, H.
  - rewrite H. unfold valid_dir, pixel_coord; simpl. lra.
Qed.

End HealpixFacts.

(** ** The notebook against arbitrary libraries *)

Section Libraries.

Variables world exn : Type.
Variable distmod : R -> M world exn R.
Variable separation : SkyCoord -> SkyCoord -> M world exn R.
Variable nside2npix : nat -> nat.
Variable pix2ang : nat -> nat -> M world exn (R * R).

(** C2 (as amended): the model does not inspect the redshift.  Whatever [z]
    is, negative or not, an evaluation first hands [z] unchanged to the
    background model; an exception of the background model or of the
    geometry call is the outcome of the evaluation, unchanged; otherwise the
    outcome is [mu_cosmo + A * cos theta]. *)
Theorem C2_redshift_goes_to_background (z A l0 b0 l_sn b_sn : R) (w : world) :
  dipole_mu_physical distmod separation z A l0 b0 l_sn b_sn w =
  match distmod z w with
  | (w1, inl e) => (w1, inl e)
  | (w1, inr mu) =>
      match separation (mkSkyCoord l_sn b_sn galactic)
                       (mkSkyCoord l0 b0 galactic) w1 with
      | (w2, inl e) => (w2, inl e)
      | (w2, inr theta) => (w2, inr (mu + A * cos theta))
      end
  end.
Proof.
  unfold dipole_mu_physical, bind.
  destruct (distmod z w) as [w1 [e | mu]]; [reflexivity |].
  destruct (separation _ _ w1) as [w2 [e | theta]]; reflexivity.
Qed.

Lemma dipole_mu_physical_inr_inv z A l0 b0 l_sn b_sn w w' v :
  dipole_mu_physical distmod separation z A l0 b0 l_sn b_sn w = (w', inr v) ->
  exists w1 mu theta,
    distmod z w = (w1, inr mu) /\ v = mu + A * cos theta.
Proof.
  intros H. unfold dipole_mu_physical in H.
  apply bind_inr_inv in H. destruct H as (w1 & mu & Hmu & H).
  apply bind_inr_inv in H. destruct H as (w2 & theta & _ & H).
  unfold ret in H. inversion H. exists w1, mu, theta.
  split; [exact Hmu | reflexivity].
Qed.

Lemma dipole_map_inr_inv A l b N w w' m :
  dipole_map separation nside2npix pix2ang A l b N w = (w', inr m) ->
  exists angle, m = map (fun a => A * cos a) angle.
Proof.
  intros H. unfold dipole_map in H.
  apply bind_inr_inv in H. destruct H as (w1 & lb & _ & H).
  destruct (split lb) as [ls bs].
  apply bind_inr_inv in H. destruct H as (w2 & angle & _ & H).
  unfold ret in H. inversion H. exists angle. reflexivity.
Qed.

(** C10: the dipole term never exceeds the amplitude in absolute value.
    Whatever the libraries return: every modulus that [dipole_mu_physical]
    returns is within [|A|] of the background modulus which that evaluation
    obtained; and, separately, every value of every map that [dipole_map]
    returns lies in [[-|A|, |A|]]. *)
Theorem C10_deviation_bounded (A l0 b0 : R) :
  (forall theta, - Rabs A <= A * cos theta <= Rabs A) /\
  (forall (z l_sn b_sn : R) (w w1 : world) (v : R),
     dipole_mu_physical distmod separation z A l0 b0 l_sn b_sn w
     = (w1, inr v) ->
     exists w' mu,
       distmod z w = (w', inr mu) /\ Rabs (v - mu) <= Rabs A) /\
  (forall (N : nat) (w w2 : world) (m : list R),
     dipole_map separation nside2npix pix2ang A l0 b0 N w = (w2, inr m) ->
     Forall (fun x => - Rabs A <= x <= Rabs A) m).
Proof.
  split; [intros theta; apply amplitude_cos_bound |]. split.
  - intros z l_sn b_sn w w1 v Hv.
    apply dipole_mu_physical_inr_inv in Hv.
    destruct Hv as (w' & mu & theta & Hmu & ->).
    exists w', mu. split; [exact Hmu |].
    replace (mu + A * cos theta - mu) with (A * cos theta) by ring.
    apply Rabs_le, amplitude_cos_bound.
  - intros N w w2 m Hm.
    apply dipole_map_inr_inv in Hm. destruct Hm as [angle ->].
    apply Forall_forall. intros x Hx. apply in_map_iff in Hx.
    destruct Hx as (a & <- & _). apply amplitude_cos_bound.
Qed.

Lemma mapM_length {A B} (f : A -> M world exn B) xs w w' ys :
  mapM f xs w = (w', inr ys) -> length ys = length xs.
Proof.
  intros H. apply mapM_inr_inv in H. apply Forall2_length in H.
  symmetry. exact H.
Qed.

(** X1: a map that is returned has one value per pixel index, exactly
    [nside2npix NSIDE] of them, whatever the libraries returned on the
    way. *)
Theorem dipole_map_length (A l b : R) (N : nat) (w w' : world) (m : list R) :
  dipole_map separation nside2npix pix2ang A l b N w = (w', inr m) ->
  length m = nside2npix N.
Proof.
  intros H. unfold dipole_map in H.
  apply bind_inr_inv in H. destruct H as (w1 & lb & Hlb & H).
  apply mapM_length in Hlb. rewrite length_seq in Hlb.
  pose proof (length_fst_split lb) as Hl.
  pose proof (length_snd_split lb) as Hb.
  destruct (split lb) as [ls bs]. simpl in Hl, Hb.
  apply bind_inr_inv in H. destruct H as (w2 & angle & Hang & H).
  apply mapM_length in Hang.
  rewrite length_map, length_combine, Hl, Hb, Nat.min_id in Hang.
  unfold ret in H. inversion H. rewrite length_map. lia.
Qed.

(** *** Libraries that keep their contracts

    The background model is defined on [valid_z] and returns [mu_cosmo z]
    there; the geometry call returns the great-circle angle of two sky
    directions given in the same frame. *)

Section Contracts.

Variable valid_z : R -> Prop.
Variable mu_cosmo : R -> R.

Hypothesis distmod_ok :
  forall z w, valid_z z -> returns (distmod z) w (mu_cosmo z).

Hypothesis separation_ok :
  forall a b w, valid_dir a -> valid_dir b -> frame a = frame b ->
    returns (separation a b) w (great_circle a b).

Lemma dipole_mu_physical_returns z A l0 b0 l_sn b_sn w :
  valid_z z ->
  valid_dir (mkSkyCoord l0 b0 galactic) ->
  valid_dir (mkSkyCoord l_sn b_sn galactic) ->
  returns (dipole_mu_physical distmod separation z A l0 b0 l_sn b_sn) w
    (mu_cosmo z
     + A * cos (great_circle (mkSkyCoord l_sn b_sn galactic)
                             (mkSkyCoord l0 b0 galactic))).
Proof.
  intros Hz Hd Hs. unfold dipole_mu_physical.
  apply returns_bind with (a := mu_cosmo z); [apply distmod_ok, Hz |].
  intros w1. eapply returns_bind.
  - apply separation_ok; [exact Hs | exact Hd | reflexivity].
  - intros w2. apply returns_ret.
Qed.

(** C1: on a redshift of the background model's domain and two sky
    directions, [dipole_mu_physical] returns [mu_cosmo z + A * cos theta],
    where [theta] is the great-circle separation of the target from the
    dipole direction, an angle between 0 and pi. *)
Theorem C1_modulus_is_background_plus_dipole
    (z A l0 b0 l_sn b_sn : R) (w : world) :
  valid_z z ->
  valid_dir (mkSkyCoord l0 b0 galactic) ->
  valid_dir (mkSkyCoord l_sn b_sn galactic) ->
  exists theta,
    theta = great_circle (mkSkyCoord l_sn b_sn galactic)
                         (mkSkyCoord l0 b0 galactic) /\
    0 <= theta <= PI /\
    returns (dipole_mu_physical distmod separation z A l0 b0 l_sn b_sn) w
      (mu_cosmo z + A * cos theta).
Proof.
  intros Hz Hd Hs. eexists. split; [reflexivity |]. split.
  - apply great_circle_range.
  - apply dipole_mu_physical_returns; assumption.
Qed.

(** C4: when the target is the dipole direction itself the separation is 0
    and the result is [mu_cosmo z + A]; so it is [mu_cosmo z + 0.05] for the
    notebook's amplitude 0.05 and direction (l, b) = (275, 56) degrees. *)
Theorem C4_on_the_dipole_axis (z : R) (w : world) :
  valid_z z ->
  (forall A l b,
     valid_dir (mkSkyCoord l b galactic) ->
     great_circle (mkSkyCoord l b galactic) (mkSkyCoord l b galactic) = 0 /\
     returns (dipole_mu_physical distmod separation z A l b l b) w
       (mu_cosmo z + A)) /\
  returns (dipole_mu_physical distmod separation z (5 / 100) 275 56 275 56) w
    (mu_cosmo z + 5 / 100).
Proof.
  intros Hz.
  assert (G : forall A l b,
             valid_dir (mkSkyCoord l b galactic) ->
             returns (dipole_mu_physical distmod separation z A l b l b) w
               (mu_cosmo z + A)).
  { intros A l b Hd.
    pose proof (dipole_mu_physical_returns z A l b l b w Hz Hd Hd) as H.
    rewrite great_circle_refl, cos_0, Rmult_1_r in H. exact H. }
  split.
  - intros A l b Hd. split; [apply great_circle_refl | apply G, Hd].
  - apply G. unfold valid_dir; simpl. lra.
Qed.

(** C6: the deviation from the background changes sign with the
    amplitude. *)
Theorem C6_sign_symmetry (z A l0 b0 l_sn b_sn : R) (w w' : world) :
  valid_z z ->
  valid_dir (mkSkyCoord l0 b0 galactic) ->
  valid_dir (mkSkyCoord l_sn b_sn galactic) ->
  exists v v',
    returns (dipole_mu_physical distmod separation z A l0 b0 l_sn b_sn) w v /\
    returns (dipole_mu_physical distmod separation z (- A) l0 b0 l_sn b_sn)
      w' v' /\
    v - mu_cosmo z = - (v' - mu_cosmo z).
Proof.
  intros Hz Hd Hs. do 2 eexists. split; [| split].
  - apply dipole_mu_physical_returns; assumption.
  - apply dipole_mu_physical_returns; assumption.
  - ring.
Qed.

(** C7: with a background modulus that increases strictly with redshift,
    so does the modulus of the model, for a fixed amplitude, dipole
    direction and target direction. *)
Theorem C7_increasing_in_redshift (z1 z2 A l0 b0 l_sn b_sn : R)
    (w w' : world) :
  (forall x y, valid_z x -> valid_z y -> x < y -> mu_cosmo x < mu_cosmo y) ->
  valid_z z1 -> valid_z z2 -> z1 < z2 ->
  valid_dir (mkSkyCoord l0 b0 galactic) ->
  valid_dir (mkSkyCoord l_sn b_sn galactic) ->
  exists v1 v2,
    returns (dipole_mu_physical distmod separation z1 A l0 b0 l_sn b_sn)
      w v1 /\
    returns (dipole_mu_physical distmod separation z2 A l0 b0 l_sn b_sn)
      w' v2 /\
    v1 < v2.
Proof.
  intros Hmono Hz1 Hz2 Hlt Hd Hs. do 2 eexists. split; [| split].
  - apply dipole_mu_physical_returns; assumption.
  - apply dipole_mu_physical_returns; assumption.
  - pose proof (Hmono z1 z2 Hz1 Hz2 Hlt). lra.
Qed.

(** X2: a negative amplitude is the same dipole pointing the other way:
    amplitude [- A] along [(l0, b0)] and amplitude [A] along the opposite
    point [(l0 + 180, - b0)] give the same modulus. *)
Theorem negative_amplitude_is_opposite_dipole
    (z A l0 b0 l_sn b_sn : R) (w w' : world) :
  valid_z z ->
  valid_dir (mkSkyCoord l0 b0 galactic) ->
  valid_dir (mkSkyCoord l_sn b_sn galactic) ->
  exists v,
    returns (dipole_mu_physical distmod separation z (- A) l0 b0 l_sn b_sn)
      w v /\
    returns (dipole_mu_physical distmod separation z A (l0 + 180) (- b0)
               l_sn b_sn) w' v.
Proof.
  intros Hz Hd Hs. eexists. split.
  - apply dipole_mu_physical_returns; assumption.
  - assert (Hd' : valid_dir (mkSkyCoord (l0 + 180) (- b0) galactic))
      by (unfold valid_dir in *; simpl in *; lra).
    pose proof (dipole_mu_physical_returns z A (l0 + 180) (- b0) l_sn b_sn
                  w' Hz Hd' Hs) as H.
    change (mkSkyCoord (l0 + 180) (- b0) galactic)
      with (antipode (mkSkyCoord l0 b0 galactic)) in H.
    rewrite cos_great_circle_antipode_r in H.
    replace (mu_cosmo z
             + - A * cos (great_circle (mkSkyCoord l_sn b_sn galactic)
                                       (mkSkyCoord l0 b0 galactic)))
      with (mu_cosmo z
            + A * - cos (great_circle (mkSkyCoord l_sn b_sn galactic)
                                      (mkSkyCoord l0 b0 galactic)))
      by ring.
    exact H.
Qed.

(** X3: longitudes count modulo 360 degrees: adding whole turns to the
    longitude of the dipole, or to that of the target, does not change the
    modulus. *)
Theorem longitude_is_periodic
    (z A l0 b0 l_sn b_sn : R) (k : Z) (w w' w'' : world) :
  valid_z z ->
  valid_dir (mkSkyCoord l0 b0 galactic) ->
  valid_dir (mkSkyCoord l_sn b_sn galactic) ->
  exists v,
    returns (dipole_mu_physical distmod separation z A l0 b0 l_sn b_sn)
      w v /\
    returns (dipole_mu_physical distmod separation z A
               (l0 + 360 * IZR k) b0 l_sn b_sn) w' v /\
    returns (dipole_mu_physical distmod separation z A
               l0 b0 (l_sn + 360 * IZR k) b_sn) w'' v.
Proof.
  intros Hz Hd Hs. eexists. split; [| split].
  - apply dipole_mu_physical_returns; assumption.
  - pose proof (dipole_mu_physical_returns z A (l0 + 360 * IZR k) b0
                  l_sn b_sn w' Hz Hd Hs) as H.
    rewrite (great_circle_sym _ (mkSkyCoord (l0 + 360 * IZR k) b0 galactic)),
      great_circle_lon_period, great_circle_sym in H.
    exact H.
  - pose proof (dipole_mu_physical_returns z A l0 b0
                  (l_sn + 360 * IZR k) b_sn w'' Hz Hd Hs) as H.
    rewrite great_circle_lon_period in H. exact H.
Qed.

(** X4: the model sees only the difference of the two longitudes: turning
    dipole and target about the polar axis by the same angle does not change
    the modulus. *)
Theorem common_longitude_shift
    (z A l0 b0 l_sn b_sn d : R) (w w' : world) :
  valid_z z ->
  valid_dir (mkSkyCoord l0 b0 galactic) ->
  valid_dir (mkSkyCoord l_sn b_sn galactic) ->
  exists v,
    returns (dipole_mu_physical distmod separation z A l0 b0 l_sn b_sn)
      w v /\
    returns (dipole_mu_physical distmod separation z A
               (l0 + d) b0 (l_sn + d) b_sn) w' v.
Proof.
  intros Hz Hd Hs. eexists. split.
  - apply dipole_mu_physical_returns; assumption.
  - pose proof (dipole_mu_physical_returns z A (l0 + d) b0 (l_sn + d) b_sn
                  w' Hz Hd Hs) as H.
    rewrite great_circle_lon_shift in H. exact H.
Qed.

(** X5: a target a quarter turn from the dipole axis gets no correction;
    so a target at the north pole, if the dipole lies in the plane of the
    frame. *)
Theorem quarter_turn_gives_background (z A : R) (w : world) :
  valid_z z ->
  (forall l0 b0 l_sn b_sn,
     valid_dir (mkSkyCoord l0 b0 galactic) ->
     valid_dir (mkSkyCoord l_sn b_sn galactic) ->
     great_circle (mkSkyCoord l_sn b_sn galactic)
                  (mkSkyCoord l0 b0 galactic) = PI / 2 ->
     returns (dipole_mu_physical distmod separation z A l0 b0 l_sn b_sn) w
       (mu_cosmo z)) /\
  (forall l0 l_sn,
     returns (dipole_mu_physical distmod separation z A l0 0 l_sn 90) w
       (mu_cosmo z)).
Proof.
  intros Hz.
  assert (G : forall l0 b0 l_sn b_sn,
             valid_dir (mkSkyCoord l0 b0 galactic) ->
             valid_dir (mkSkyCoord l_sn b_sn galactic) ->
             great_circle (mkSkyCoord l_sn b_sn galactic)
                          (mkSkyCoord l0 b0 galactic) = PI / 2 ->
             returns (dipole_mu_physical distmod separation z A
                        l0 b0 l_sn b_sn) w (mu_cosmo z)).
  { intros l0 b0 l_sn b_sn Hd Hs Hq.
    pose proof (dipole_mu_physical_returns z A l0 b0 l_sn b_sn w Hz Hd Hs)
      as H.
    rewrite Hq, cos_PI2, Rmult_0_r, Rplus_0_r in H. exact H. }
  split; [exact G |].
  intros l0 l_sn. apply G.
  - unfold valid_dir; simpl; lra.
  - unfold valid_dir; simpl; lra.
  - unfold great_circle. rewrite dot_unit_vector; simpl.
    replace (deg2rad 90) with (PI / 2) by (unfold deg2rad; lra).
    replace (deg2rad 0) with 0 by (unfold deg2rad; lra).
    rewrite cos_PI2, sin_0.
    replace (0 * cos 0 * cos (deg2rad l_sn - deg2rad l0) + sin (PI / 2) * 0)
      with 0 by ring.
    apply acos_0.
Qed.

(** *** The sky map

    The tessellation library returns, for every pixel index below
    [nside2npix N], the centre [centre N i] of that pixel, a sky
    direction. *)

Section Tessellation.

Variable centre : nat -> nat -> R * R.

Hypothesis pix2ang_ok :
  forall N i w, (i < nside2npix N)%nat ->
    returns (pix2ang N i) w (centre N i).

Hypothesis centre_valid :
  forall N i, (i < nside2npix N)%nat -> valid_dir (pixel_coord (centre N i)).

Lemma combine_split {A B} (xs : list (A * B)) :
  combine (fst (split xs)) (snd (split xs)) = xs.
Proof.
  destruct (split xs) as [l1 l2] eqn:E. simpl.
  apply split_combine, E.
Qed.

Lemma dipole_map_returns A l b N w :
  valid_dir (mkSkyCoord l b galactic) ->
  returns (dipole_map separation nside2npix pix2ang A l b N) w
    (map (fun i => A * cos (great_circle (mkSkyCoord l b galactic)
                                         (pixel_coord (centre N i))))
         (seq 0 (nside2npix N))).
Proof.
  intros Hd. unfold dipole_map.
  apply returns_bind with (a := map (centre N) (seq 0 (nside2npix N))).
  - apply mapM_returns. intros i Hi w0. apply pix2ang_ok.
    apply in_seq in Hi. lia.
  - intros w1.
    pose proof (combine_split (map (centre N) (seq 0 (nside2npix N)))) as E.
    destruct (split (map (centre N) (seq 0 (nside2npix N)))) as [ls bs].
    simpl in E. rewrite E.
    eapply returns_bind.
    + apply mapM_returns with
        (g := great_circle (mkSkyCoord l b galactic)).
      intros c Hc w0. apply in_map_iff in Hc. destruct Hc as (lb & <- & Hlb).
      apply in_map_iff in Hlb. destruct Hlb as (i & <- & Hi).
      apply in_seq in Hi.
      apply separation_ok;
        [exact Hd | apply centre_valid; lia | reflexivity].
    + intros w2. rewrite !map_map. apply returns_ret.
Qed.

(** The notebook's own map: amplitude 0.05, dipole at (l, b) = (275, 56)
    degrees, NSIDE = 32. *)
Lemma dipole_map_demo_returns w :
  returns (dipole_map_demo separation nside2npix pix2ang) w
    (map (fun i => 5 / 100
                   * cos (great_circle (mkSkyCoord 275 56 galactic)
                                       (pixel_coord (centre 32 i))))
         (seq 0 (nside2npix 32))).
Proof. apply dipole_map_returns. unfold valid_dir; simpl; lra. Qed.

(** C3: the sky map holds, for every pixel of the tessellation and in pixel
    order, the dipole term [A * cos theta] alone, [theta] being the
    separation of the pixel centre from the dipole direction.  No background
    modulus enters: [dipole_map] does not even take the background model. *)
Theorem C3_map_is_the_deviation_field (A l b : R) (N : nat) (w : world) :
  valid_dir (mkSkyCoord l b galactic) ->
  exists m,
    returns (dipole_map separation nside2npix pix2ang A l b N) w m /\
    length m = nside2npix N /\
    forall i, (i < nside2npix N)%nat ->
      nth i m 0
      = A * cos (great_circle (mkSkyCoord l b galactic)
                              (pixel_coord (centre N i))).
Proof.
  intros Hd. eexists. split; [apply dipole_map_returns, Hd |]. split.
  - rewrite length_map, length_seq. reflexivity.
  - intros i Hi. rewrite nth_map_seq by exact Hi. reflexivity.
Qed.

(** C5: the opposite point of the sky is at separation pi from the dipole
    direction, where the dipole term is [- A]; a pixel of the map at
    separation pi holds [- A], computed as at any other pixel. *)
Theorem C5_antipode_gives_minus_amplitude
    (A l b : R) (N i : nat) (w : world) :
  valid_dir (mkSkyCoord l b galactic) ->
  (i < nside2npix N)%nat ->
  great_circle (mkSkyCoord l b galactic) (pixel_coord (centre N i)) = PI ->
  great_circle (mkSkyCoord l b galactic)
               (antipode (mkSkyCoord l b galactic)) = PI /\
  A * cos (great_circle (mkSkyCoord l b galactic)
                        (antipode (mkSkyCoord l b galactic))) = - A /\
  exists m,
    returns (dipole_map separation nside2npix pix2ang A l b N) w m /\
    nth i m 0 = - A.
Proof.
  intros Hd Hi Hpi. split; [apply great_circle_antipode |]. split.
  - rewrite great_circle_antipode, cos_PI. ring.
  - eexists. split; [apply dipole_map_returns, Hd |].
    rewrite nth_map_seq by exact Hi. rewrite Hpi, cos_PI. ring.
Qed.

(** X6: the map is the model without its background: at every pixel the
    map holds what [dipole_mu_physical], asked for the centre of that pixel
    at any redshift of the domain, adds to the background modulus.  (The two
    cells call [separation] with the dipole on opposite sides.) *)
Theorem map_is_model_minus_background
    (z A l b : R) (N i : nat) (w w' : world) :
  valid_z z ->
  valid_dir (mkSkyCoord l b galactic) ->
  (i < nside2npix N)%nat ->
  exists m v,
    returns (dipole_map separation nside2npix pix2ang A l b N) w m /\
    returns (dipole_mu_physical distmod separation z A l b
               (fst (centre N i)) (snd (centre N i))) w' v /\
    nth i m 0 = v - mu_cosmo z.
Proof.
  intros Hz Hd Hi. do 2 eexists. split; [| split].
  - apply dipole_map_returns, Hd.
  - apply dipole_mu_physical_returns; [exact Hz | exact Hd |].
    apply (centre_valid N i Hi).
  - rewrite nth_map_seq by exact Hi.
    change (mkSkyCoord (fst (centre N i)) (snd (centre N i)) galactic)
      with (pixel_coord (centre N i)).
    rewrite (great_circle_sym (pixel_coord (centre N i))). ring.
Qed.

(** X7: the map is odd under reflection through the centre of the sphere:
    two pixels whose centres are opposite points hold opposite values. *)
Theorem opposite_pixels_hold_opposite_values
    (A l b : R) (N i j : nat) (w : world) :
  valid_dir (mkSkyCoord l b galactic) ->
  (i < nside2npix N)%nat -> (j < nside2npix N)%nat ->
  great_circle (pixel_coord (centre N i)) (pixel_coord (centre N j)) = PI ->
  exists m,
    returns (dipole_map separation nside2npix pix2ang A l b N) w m /\
    nth j m 0 = - nth i m 0.
Proof.
  intros Hd Hi Hj Hopp. eexists. split; [apply dipole_map_returns, Hd |].
  rewrite !nth_map_seq by assumption.
  rewrite (great_circle_PI_opposite _ _ Hopp). ring.
Qed.

(** X8: for a positive amplitude the map falls off with the separation
    from the dipole direction: of two pixels, the one nearer to it holds the
    larger value. *)
Theorem nearer_pixel_holds_more (A l b : R) (N i j : nat) (w : world) :
  valid_dir (mkSkyCoord l b galactic) ->
  (i < nside2npix N)%nat -> (j < nside2npix N)%nat ->
  0 < A ->
  great_circle (mkSkyCoord l b galactic) (pixel_coord (centre N i))
  < great_circle (mkSkyCoord l b galactic) (pixel_coord (centre N j)) ->
  exists m,
    returns (dipole_map separation nside2npix pix2ang A l b N) w m /\
    nth j m 0 < nth i m 0.
Proof.
  intros Hd Hi Hj HA Hlt. eexists. split; [apply dipole_map_returns, Hd |].
  rewrite !nth_map_seq by assumption.
  apply Rmult_lt_compat_l; [exact HA |].
  pose proof (great_circle_range (mkSkyCoord l b galactic)
                (pixel_coord (centre N i))) as [Hi0 Hi1].
  pose proof (great_circle_range (mkSkyCoord l b galactic)
                (pixel_coord (centre N j))) as [Hj0 Hj1].
  apply cos_decreasing_1; assumption.
Qed.

(** X9: the map is linear in the amplitude: the map of amplitude [k * A]
    is [k] times the map of amplitude [A], pixel by pixel. *)
Theorem map_scales_with_amplitude (k A l b : R) (N : nat) (w w' : world) :
  valid_dir (mkSkyCoord l b galactic) ->
  exists m,
    returns (dipole_map separation nside2npix pix2ang A l b N) w m /\
    returns (dipole_map separation nside2npix pix2ang (k * A) l b N) w'
      (map (Rmult k) m).
Proof.
  intros Hd. eexists. split; [apply dipole_map_returns, Hd |].
  rewrite map_map.
  rewrite (map_ext _ (fun i => k * A * cos (great_circle
             (mkSkyCoord l b galactic) (pixel_coord (centre N i)))))
    by (intros i; ring).
  apply dipole_map_returns, Hd.
Qed.

End Tessellation.

(** *** The sky map on the HEALPix tessellation

    The tessellation library counts [12 N^2] pixels and returns the HEALPix
    centre of each. *)

Section HealpixTessellation.

Hypothesis nside2npix_healpix :
  forall N, nside2npix N = (12 * N * N)%nat.

Hypothesis pix2ang_healpix :
  forall N i w, (i < nside2npix N)%nat ->
    returns (pix2ang N i) w (Healpix.centre N i).

Lemma mean_nonempty (xs : list R) :
  (0 < length xs)%nat -> mean xs = Some (sum xs / INR (length xs)).
Proof. destruct xs as [| x xs]; simpl; [lia | reflexivity]. Qed.

(** C9: at every resolution [N >= 1], for every amplitude and every dipole
    direction, the map has [12 N^2] values and their mean is zero: the map
    sums [A] times the scalar product of the dipole axis with each pixel
    centre, and the HEALPix centres sum to the zero vector (opposite pixels
    of a ring cancel across the axis, northern and southern rings cancel
    along it). *)
Theorem C9_map_has_zero_mean (A l b : R) (N : nat) (w : world) :
  (0 < N)%nat ->
  valid_dir (mkSkyCoord l b galactic) ->
  exists m,
    returns (dipole_map separation nside2npix pix2ang A l b N) w m /\
    length m = (12 * N * N)%nat /\
    mean m = Some 0.
Proof.
  intros HN Hd. eexists. split; [| split].
  - apply (dipole_map_returns Healpix.centre pix2ang_healpix
             (fun N i _ => HealpixFacts.healpix_centre_valid N i)), Hd.
  - rewrite length_map, length_seq. apply nside2npix_healpix.
  - rewrite mean_nonempty
      by (rewrite length_map, length_seq, nside2npix_healpix; nia).
    f_equal.
    rewrite (sum_map_scal A
      (fun i => cos (great_circle (mkSkyCoord l b galactic)
                                  (pixel_coord (Healpix.centre N i))))).
    rewrite (map_ext _
      (fun i => dot (unit_vector (mkSkyCoord l b galactic))
                    (unit_vector (pixel_coord (Healpix.centre N i)))))
      by (intros i; apply cos_great_circle).
    rewrite <- (map_map (fun i => unit_vector
                                    (pixel_coord (Healpix.centre N i)))
                        (dot (unit_vector (mkSkyCoord l b galactic)))).
    rewrite sum_map_dot.
    rewrite <- (map_map (Healpix.centre N)
                        (fun c => unit_vector (pixel_coord c))).
    rewrite nside2npix_healpix, <- HealpixFacts.length_centres.
    unfold Healpix.centre at 1. rewrite map_nth_seq_all.
    rewrite HealpixFacts.centres_balanced.
    unfold dot, vzero; simpl. unfold Rdiv. ring.
Qed.

End HealpixTessellation.

End Contracts.

End Libraries.

(** ** The stand-ins keep the contracts *)

Module StubFacts.

Import Stub.

Lemma in_range_true x : -90 <= x <= 90 -> in_range x = true.
Proof.
  intros [Hlo Hhi]. unfold in_range.
  destruct (Rle_dec (-90) x) as [_ | n]; [| contradiction].
  destruct (Rle_dec x 90) as [_ | n]; [reflexivity | contradiction].
Qed.

Lemma stub_distmod_ok z w : 0 < z -> returns (distmod z) w (mu z).
Proof. intros _. eexists. reflexivity. Qed.

Lemma stub_separation_ok a b w :
  valid_dir a -> valid_dir b -> frame a = frame b ->
  returns (separation a b) w (great_circle a b).
Proof.
  intros Ha Hb _. eexists. unfold separation.
  rewrite (in_range_true _ Ha), (in_range_true _ Hb). reflexivity.
Qed.

Lemma stub_pix2ang_ok N i w :
  (i < nside2npix N)%nat -> returns (pix2ang N i) w (centre N i).
Proof. intros _. eexists. reflexivity. Qed.

Lemma ln_10_pos : 0 < ln 10.
Proof. rewrite <- ln_1. apply ln_increasing; lra. Qed.

Lemma stub_mu_increasing x y : 0 < x -> 0 < y -> x < y -> mu x < mu y.
Proof.
  intros Hx _ Hxy. unfold mu, c_km_s, H0.
  assert (L : ln (299792458 / 1000 * x / (674 / 10))
              < ln (299792458 / 1000 * y / (674 / 10))).
  { apply ln_increasing; [| lra].
    apply Rdiv_lt_0_compat; lra. }
  pose proof ln_10_pos as P.
  assert (D : ln (299792458 / 1000 * x / (674 / 10)) / ln 10
              < ln (299792458 / 1000 * y / (674 / 10)) / ln 10).
  { unfold Rdiv at 1 3. apply Rmult_lt_compat_r; [| exact L].
    apply Rinv_0_lt_compat, P. }
  lra.
Qed.

Lemma b_cap_range : -90 <= b_cap <= 90.
Proof.
  unfold b_cap. pose proof (asin_bound (2 / 3)) as [Hlo Hhi].
  pose proof PI_RGT_0 as P.
  assert (E : forall t, t * 180 / PI = t / PI * 180)
    by (intros t; field; lra).
  rewrite E.
  assert (Hlo' : - (1 / 2) <= asin (2 / 3) / PI).
  { apply Rmult_le_reg_r with PI; [lra |].
    unfold Rdiv at 2. rewrite Rmult_assoc, Rinv_l by lra. lra. }
  assert (Hhi' : asin (2 / 3) / PI <= 1 / 2).
  { apply Rmult_le_reg_r with PI; [lra |].
    unfold Rdiv at 1. rewrite Rmult_assoc, Rinv_l by lra. lra. }
  lra.
Qed.

Lemma base_centre_valid k : valid_dir (pixel_coord (base_centre k)).
Proof.
  pose proof b_cap_range as [Hlo Hhi]. unfold valid_dir, pixel_coord.
  do 12 (destruct k as [| k]; [simpl; lra |]). simpl; lra.
Qed.

Lemma stub_centre_valid N i :
  (i < nside2npix N)%nat -> valid_dir (pixel_coord (centre N i)).
Proof. intros _. apply base_centre_valid. Qed.


End StubFacts.

(** ** The claims on the stand-ins *)

Lemma C1_witness :
  exists theta,
    theta = great_circle (mkSkyCoord 237 42 galactic)
                         (mkSkyCoord 275 56 galactic) /\
    0 <= theta <= PI /\
    returns (dipole_mu_physical Stub.distmod Stub.separation
               (21 / 1000) (5 / 100) 275 56 237 42) []
      (Stub.mu (21 / 1000) + 5 / 100 * cos theta).
Proof.
  apply (C1_modulus_is_background_plus_dipole
           Stub.world Stub.exn Stub.distmod Stub.separation
           (fun z => 0 < z) Stub.mu
           StubFacts.stub_distmod_ok StubFacts.stub_separation_ok);
    [lra | unfold valid_dir; simpl; lra ..].
Defined.

(** C2 (as stated) fails: at the negative redshift -1 the background model
    is called with -1, the geometry call follows, and the evaluation returns
    a modulus; nothing is rejected, however widely [InvalidInput] is
    read. *)
Lemma C2_counterexample :
  -1 < 0 /\
  dipole_mu_physical Stub.distmod Stub.separation (-1) (5 / 100) 275 56 275 56
    []
  = ([Stub.CallDistmod (-1);
      Stub.CallSeparation (mkSkyCoord 275 56 galactic)
                          (mkSkyCoord 275 56 galactic)],
     inr (Stub.mu (-1)
          + 5 / 100 * cos (great_circle (mkSkyCoord 275 56 galactic)
                                        (mkSkyCoord 275 56 galactic)))) /\
  ~ rejects_before_background Stub.distmod Stub.separation
      (fun _ => True) (-1).
Proof.
  assert (R56 : Stub.in_range 56 = true)
    by (apply StubFacts.in_range_true; lra).
  assert (E : dipole_mu_physical Stub.distmod Stub.separation
                (-1) (5 / 100) 275 56 275 56 []
              = ([Stub.CallDistmod (-1);
                  Stub.CallSeparation (mkSkyCoord 275 56 galactic)
                                      (mkSkyCoord 275 56 galactic)],
                 inr (Stub.mu (-1)
                      + 5 / 100
                        * cos (great_circle (mkSkyCoord 275 56 galactic)
                                            (mkSkyCoord 275 56 galactic))))).
  { unfold dipole_mu_physical, bind, Stub.distmod, Stub.separation, ret.
    simpl. rewrite R56. reflexivity. }
  split; [lra |]. split; [exact E |].
  intros H. destruct (H (5 / 100) 275 56 275 56 []) as (e & _ & He).
  rewrite E in He. discriminate He.
Qed.

Lemma C3_witness :
  exists m,
    returns (dipole_map Stub.separation Stub.nside2npix Stub.pix2ang
               (5 / 100) 275 56 1) [] m /\
    length m = Stub.nside2npix 1 /\
    forall i, (i < Stub.nside2npix 1)%nat ->
      nth i m 0
      = 5 / 100 * cos (great_circle (mkSkyCoord 275 56 galactic)
                                    (pixel_coord (Stub.centre 1 i))).
Proof.
  apply (C3_map_is_the_deviation_field
           Stub.world Stub.exn Stub.separation Stub.nside2npix Stub.pix2ang
           StubFacts.stub_separation_ok Stub.centre
           StubFacts.stub_pix2ang_ok StubFacts.stub_centre_valid).
  unfold valid_dir; simpl; lra.
Defined.

Lemma C4_witness :
  (forall A l b,
     valid_dir (mkSkyCoord l b galactic) ->
     great_circle (mkSkyCoord l b galactic) (mkSkyCoord l b galactic) = 0 /\
     returns (dipole_mu_physical Stub.distmod Stub.separation
                (21 / 1000) A l b l b) []
       (Stub.mu (21 / 1000) + A)) /\
  returns (dipole_mu_physical Stub.distmod Stub.separation
             (21 / 1000) (5 / 100) 275 56 275 56) []
    (Stub.mu (21 / 1000) + 5 / 100).
Proof.
  apply (C4_on_the_dipole_axis
           Stub.world Stub.exn Stub.distmod Stub.separation
           (fun z => 0 < z) Stub.mu
           StubFacts.stub_distmod_ok StubFacts.stub_separation_ok).
  lra.
Defined.

Lemma stub_pixel_6_opposite_pixel_4 :
  great_circle (mkSkyCoord 0 0 galactic) (pixel_coord (Stub.centre 1 6)) = PI.
Proof.
  change (pixel_coord (Stub.centre 1 6)) with (mkSkyCoord 180 0 galactic).
  replace (mkSkyCoord 180 0 galactic)
    with (antipode (mkSkyCoord 0 0 galactic))
    by (unfold antipode; simpl; f_equal; lra).
  apply great_circle_antipode.
Qed.

Lemma C5_witness :
  great_circle (mkSkyCoord 0 0 galactic)
               (antipode (mkSkyCoord 0 0 galactic)) = PI /\
  5 / 100 * cos (great_circle (mkSkyCoord 0 0 galactic)
                              (antipode (mkSkyCoord 0 0 galactic)))
  = - (5 / 100) /\
  exists m,
    returns (dipole_map Stub.separation Stub.nside2npix Stub.pix2ang
               (5 / 100) 0 0 1) [] m /\
    nth 6 m 0 = - (5 / 100).
Proof.
  apply (C5_antipode_gives_minus_amplitude
           Stub.world Stub.exn Stub.separation Stub.nside2npix Stub.pix2ang
           StubFacts.stub_separation_ok Stub.centre
           StubFacts.stub_pix2ang_ok StubFacts.stub_centre_valid).
  - unfold valid_dir; simpl; lra.
  - unfold Stub.nside2npix. simpl. lia.
  - apply stub_pixel_6_opposite_pixel_4.
Defined.

Lemma C6_witness :
  exists v v',
    returns (dipole_mu_physical Stub.distmod Stub.separation
               (21 / 1000) (5 / 100) 275 56 237 42) [] v /\
    returns (dipole_mu_physical Stub.distmod Stub.separation
               (21 / 1000) (- (5 / 100)) 275 56 237 42) [] v' /\
    v - Stub.mu (21 / 1000) = - (v' - Stub.mu (21 / 1000)).
Proof.
  apply (C6_sign_symmetry
           Stub.world Stub.exn Stub.distmod Stub.separation
           (fun z => 0 < z) Stub.mu
           StubFacts.stub_distmod_ok StubFacts.stub_separation_ok);
    [lra | unfold valid_dir; simpl; lra ..].
Defined.

Lemma C7_witness :
  exists v1 v2,
    returns (dipole_mu_physical Stub.distmod Stub.separation
               (15 / 1000) (5 / 100) 275 56 237 42) [] v1 /\
    returns (dipole_mu_physical Stub.distmod Stub.separation
               (21 / 1000) (5 / 100) 275 56 237 42) [] v2 /\
    v1 < v2.
Proof.
  apply (C7_increasing_in_redshift
           Stub.world Stub.exn Stub.distmod Stub.separation
           (fun z => 0 < z) Stub.mu
           StubFacts.stub_distmod_ok StubFacts.stub_separation_ok);
    [exact StubFacts.stub_mu_increasing | lra | lra | lra
    | unfold valid_dir; simpl; lra ..].
Defined.

Lemma C9_witness :
  exists m,
    returns (dipole_map Stub.separation Stub.nside2npix HealpixStub.pix2ang
               (5 / 100) 275 56 32) [] m /\
    length m = (12 * 32 * 32)%nat /\
    mean m = Some 0.
Proof.
  apply (C9_map_has_zero_mean
           Stub.world Stub.exn Stub.separation Stub.nside2npix
           HealpixStub.pix2ang StubFacts.stub_separation_ok).
  - intros N. unfold Stub.nside2npix. reflexivity.
  - intros N i w _. eexists. reflexivity.
  - lia.
  - unfold valid_dir; simpl; lra.
Defined.

Lemma C10_witness :
  exists v m,
    returns (dipole_mu_physical Stub.distmod Stub.separation
               (21 / 1000) (5 / 100) 275 56 237 42) [] v /\
    returns (dipole_map Stub.separation Stub.nside2npix Stub.pix2ang
               (5 / 100) 275 56 1) [] m /\
    (exists w' mu,
       Stub.distmod (21 / 1000) [] = (w', inr mu) /\
       Rabs (v - mu) <= Rabs (5 / 100)) /\
    Forall (fun x => - Rabs (5 / 100) <= x <= Rabs (5 / 100)) m.
Proof.
  assert (Hd : valid_dir (mkSkyCoord 275 56 galactic))
    by (unfold valid_dir; simpl; lra).
  assert (Hs : valid_dir (mkSkyCoord 237 42 galactic))
    by (unfold valid_dir; simpl; lra).
  assert (Hz : 0 < 21 / 1000) by lra.
  destruct (dipole_mu_physical_returns
              Stub.world Stub.exn Stub.distmod Stub.separation
              (fun z => 0 < z) Stub.mu
              StubFacts.stub_distmod_ok StubFacts.stub_separation_ok
              (21 / 1000) (5 / 100) 275 56 237 42 [] Hz Hd Hs) as [w1 H1].
  destruct (dipole_map_returns
              Stub.world Stub.exn Stub.separation Stub.nside2npix
              Stub.pix2ang StubFacts.stub_separation_ok Stub.centre
              StubFacts.stub_pix2ang_ok StubFacts.stub_centre_valid
              (5 / 100) 275 56 1 [] Hd) as [w2 H2].
  destruct (C10_deviation_bounded
              Stub.world Stub.exn Stub.distmod Stub.separation
              Stub.nside2npix Stub.pix2ang (5 / 100) 275 56)
    as (_ & Bv & Bm).
  eexists. eexists. split; [exists w1; exact H1 |].
  split; [exists w2; exact H2 |]. split.
  - exact (Bv _ _ _ _ _ _ H1).
  - exact (Bm _ _ _ _ H2).
Defined.

(** ** The figures *)

Lemma deg2rad_le x y : x <= y -> deg2rad x <= deg2rad y.
Proof. intros H. unfold deg2rad. pose proof PI_RGT_0. nra. Qed.

Lemma deg2rad_180 : deg2rad 180 = PI.
Proof. unfold deg2rad. lra. Qed.

Lemma deg2rad_90 : deg2rad 90 = PI / 2.
Proof. unfold deg2rad. lra. Qed.

Lemma deg2rad_minus x y : deg2rad (x - y) = deg2rad x - deg2rad y.
Proof. unfold deg2rad. field. Qed.

(** X10: cell 5 keeps a direction inside the Mollweide axes: a longitude
    between 0 and 360 degrees is drawn between -pi and pi, a latitude
    between the poles between -pi/2 and pi/2. *)
Theorem dipole_plot_position_in_axes (l b : R) :
  0 <= l <= 360 -> -90 <= b <= 90 ->
  - PI <= fst (dipole_plot_position l b) <= PI /\
  - (PI / 2) <= snd (dipole_plot_position l b) <= PI / 2.
Proof.
  intros [Hl0 Hl1] [Hb0 Hb1]. unfold dipole_plot_position; simpl.
  pose proof (deg2rad_le (-180) (l - 180)) as L0.
  pose proof (deg2rad_le (l - 180) 180) as L1.
  pose proof (deg2rad_le (-90) b) as B0.
  pose proof (deg2rad_le b 90) as B1.
  replace (deg2rad (-180)) with (- PI) in L0 by (unfold deg2rad; lra).
  replace (deg2rad (-90)) with (- (PI / 2)) in B0 by (unfold deg2rad; lra).
  rewrite deg2rad_180 in L1. rewrite deg2rad_90 in B1.
  repeat split; [apply L0 | apply L1 | apply B0 | apply B1]; lra.
Qed.

(** X11: the marker of cell 6 sits on the dipole direction: its first
    angle is a colatitude (between 0 and pi), and the point of the sphere at
    that colatitude and longitude is the point at longitude [l] and latitude
    [b]; a direction drawn there is at separation 0 from the dipole, where
    the map holds [A]. *)
Theorem marker_is_on_the_dipole (A l b : R) :
  -90 <= b <= 90 ->
  0 <= fst (marker_position l b) <= PI /\
  ang2vec (fst (marker_position l b)) (snd (marker_position l b))
  = unit_vector (mkSkyCoord l b galactic) /\
  forall c,
    unit_vector c
    = ang2vec (fst (marker_position l b)) (snd (marker_position l b)) ->
    great_circle (mkSkyCoord l b galactic) c = 0 /\
    A * cos (great_circle (mkSkyCoord l b galactic) c) = A.
Proof.
  intros [Hb0 Hb1].
  assert (E : ang2vec (fst (marker_position l b)) (snd (marker_position l b))
              = unit_vector (mkSkyCoord l b galactic)).
  { unfold ang2vec, marker_position, unit_vector; simpl.
    rewrite deg2rad_minus, deg2rad_90, sin_shift, cos_shift. reflexivity. }
  split; [| split; [exact E |]].
  - unfold marker_position; simpl.
    replace 0 with (deg2rad 0) at 1 by (unfold deg2rad; lra).
    rewrite <- deg2rad_180. split; apply deg2rad_le; lra.
  - intros c Hc. rewrite E in Hc.
    assert (G : great_circle (mkSkyCoord l b galactic) c = 0).
    { unfold great_circle. rewrite Hc, unit_vector_norm. apply acos_1. }
    split; [exact G |]. rewrite G, cos_0. ring.
Qed.

Section FigureFacts.

Variable wrap_at : R -> R -> R.

(** Wrapping at 180 degrees moves a longitude by whole turns into
    [[-180, 180)]. *)
Hypothesis wrap_at_turns :
  forall l, exists k : Z, wrap_at 180 l = l - 360 * IZR k.
Hypothesis wrap_at_range : forall l, -180 <= wrap_at 180 l < 180.

Lemma wrap_at_low l : 0 <= l < 180 -> wrap_at 180 l = l.
Proof.
  intros [H0 H1]. destruct (wrap_at_turns l) as [k Hk].
  pose proof (wrap_at_range l) as [R0 R1]. rewrite Hk in R0, R1.
  assert (Hk1 : (-1 < k)%Z) by (apply lt_IZR; lra).
  assert (Hk2 : (k < 1)%Z) by (apply lt_IZR; lra).
  assert (k = 0%Z) by lia. subst k. rewrite Hk. lra.
Qed.

Lemma wrap_at_high l : 180 <= l < 360 -> wrap_at 180 l = l - 360.
Proof.
  intros [H0 H1]. destruct (wrap_at_turns l) as [k Hk].
  pose proof (wrap_at_range l) as [R0 R1]. rewrite Hk in R0, R1.
  assert (Hk1 : (0 < k)%Z) by (apply lt_IZR; lra).
  assert (Hk2 : (k < 2)%Z) by (apply lt_IZR; lra).
  assert (k = 1%Z) by lia. subst k. rewrite Hk. lra.
Qed.

(** X12: the two Mollweide figures do not share a longitude convention.
    Cell 3 draws every longitude inside the axes, longitude 0 at the
    centre; cell 5 draws the same longitude half a turn away from there
    (at the same height). *)
Theorem figures_differ_by_half_a_turn (l b : R) :
  0 <= l < 360 ->
  - PI <= fst (sn_plot_position wrap_at l b) < PI /\
  snd (dipole_plot_position l b) = snd (sn_plot_position wrap_at l b) /\
  (l < 180 ->
   fst (sn_plot_position wrap_at l b) = deg2rad l /\
   fst (dipole_plot_position l b)
   = fst (sn_plot_position wrap_at l b) - PI) /\
  (180 <= l ->
   fst (sn_plot_position wrap_at l b) = deg2rad l - 2 * PI /\
   fst (dipole_plot_position l b)
   = fst (sn_plot_position wrap_at l b) + PI).
Proof.
  intros [H0 H1]. unfold sn_plot_position, dipole_plot_position; simpl.
  split; [| split; [reflexivity | split]].
  - pose proof (wrap_at_range l) as [R0 R1]. pose proof PI_RGT_0.
    unfold deg2rad. split; nra.
  - intros Hlt. rewrite wrap_at_low by lra.
    rewrite deg2rad_minus, deg2rad_180. split; [reflexivity | ring].
  - intros Hge. rewrite wrap_at_high by lra.
    rewrite !deg2rad_minus, deg2rad_180.
    replace (deg2rad 360) with (2 * PI) by (unfold deg2rad; lra).
    split; [reflexivity | ring].
Qed.

End FigureFacts.

(** ** The Hubble diagram *)

Lemma combine_map_map {A B C} (f : A -> B) (g : A -> C) xs :
  combine (map f xs) (map g xs) = map (fun x => (f x, g x)) xs.
Proof.
  induction xs as [| x xs IH]; simpl; [reflexivity | rewrite IH; reflexivity].
Qed.

Section HubbleDiagramFacts.

Variable argsort : list R -> list nat.

(** X13: the red line of the Hubble diagram goes through the model's own
    points.  When [np.argsort] returns the positions of the column in an
    order that sorts it, the two sorted columns exist, the redshifts are in
    nondecreasing order, and the pairs (redshift, modulus) drawn are exactly
    the rows of the table, each once: reordering both columns by the one
    index array keeps every redshift with its modulus. *)
Theorem sorted_model_curve_keeps_rows (z mu_model : list R) :
  length mu_model = length z ->
  Permutation (argsort z) (seq 0 (length z)) ->
  Sorted Rle (map (fun i => nth i z 0) (argsort z)) ->
  exists z_sorted mu_model_sorted,
    sorted_model_curve argsort z mu_model
    = Some (z_sorted, mu_model_sorted) /\
    Sorted Rle z_sorted /\
    Permutation (combine z mu_model) (combine z_sorted mu_model_sorted).
Proof.
  intros Hlen Hperm Hsorted.
  assert (Hin : forall i, In i (argsort z) -> (i < length z)%nat).
  { intros i Hi. apply (Permutation_in _ Hperm) in Hi.
    apply in_seq in Hi. lia. }
  exists (map (fun i => nth i z 0) (argsort z)).
  exists (map (fun i => nth i mu_model 0) (argsort z)).
  split; [| split; [exact Hsorted |]].
  - unfold sorted_model_curve.
    rewrite (take_in_range z 0 _ Hin).
    rewrite (take_in_range mu_model 0)
      by (intros i Hi; rewrite Hlen; apply Hin, Hi).
    reflexivity.
  - rewrite combine_map_map.
    rewrite (map_ext _ (fun i => nth i (combine z mu_model) (0, 0)))
      by (intros i; symmetry; apply combine_nth; symmetry; exact Hlen).
    apply Permutation_sym.
    eapply Permutation_trans; [apply Permutation_map, Hperm |].
    replace (length z) with (length (combine z mu_model))
      by (rewrite length_combine, Hlen, Nat.min_id; reflexivity).
    rewrite map_nth_seq_all. apply Permutation_refl.
Qed.

End HubbleDiagramFacts.

(** ** The further properties on the stand-ins *)

Lemma stub_wrap_at_turns l :
  exists k : Z, FigureStub.wrap_at 180 l = l - 360 * IZR k.
Proof. eexists. reflexivity. Qed.

Lemma stub_wrap_at_range l : -180 <= FigureStub.wrap_at 180 l < 180.
Proof.
  unfold FigureStub.wrap_at. rewrite plus_IZR.
  pose proof (base_Int_part ((l - 180) / 360)) as [Hlo Hhi].
  assert (E : l = 360 * ((l - 180) / 360) + 180) by field.
  set (r := (l - 180) / 360) in *. lra.
Qed.

Lemma stub_argsort_perm :
  Permutation (FigureStub.argsort pantheon_z) (seq 0 (length pantheon_z)).
Proof.
  apply NoDup_Permutation.
  - unfold FigureStub.argsort.
    repeat constructor; simpl; intuition discriminate.
  - apply seq_NoDup.
  - intros i. unfold FigureStub.argsort; simpl. intuition.
Qed.

Lemma stub_argsort_sorted :
  Sorted Rle (map (fun i => nth i pantheon_z 0)
                  (FigureStub.argsort pantheon_z)).
Proof.
  unfold FigureStub.argsort, pantheon_z; simpl.
  repeat constructor; lra.
Qed.

Lemma stub_dipole_valid : valid_dir (mkSkyCoord 275 56 galactic).
Proof. unfold valid_dir; simpl; lra. Qed.

Lemma stub_target_valid : valid_dir (mkSkyCoord 237 42 galactic).
Proof. unfold valid_dir; simpl; lra. Qed.

Lemma stub_origin_valid : valid_dir (mkSkyCoord 0 0 galactic).
Proof. unfold valid_dir; simpl; lra. Qed.

Lemma dipole_map_length_witness :
  exists m,
    returns (dipole_map Stub.separation Stub.nside2npix Stub.pix2ang
               (5 / 100) 275 56 1) [] m /\
    length m = Stub.nside2npix 1.
Proof.
  destruct (dipole_map_returns
              Stub.world Stub.exn Stub.separation Stub.nside2npix
              Stub.pix2ang StubFacts.stub_separation_ok Stub.centre
              StubFacts.stub_pix2ang_ok StubFacts.stub_centre_valid
              (5 / 100) 275 56 1 [] stub_dipole_valid) as [w' H].
  eexists. split; [exists w'; exact H |].
  exact (dipole_map_length
           Stub.world Stub.exn Stub.separation Stub.nside2npix Stub.pix2ang
           (5 / 100) 275 56 1 [] w' _ H).
Defined.

Lemma negative_amplitude_is_opposite_dipole_witness :
  exists v,
    returns (dipole_mu_physical Stub.distmod Stub.separation
               (21 / 1000) (- (5 / 100)) 275 56 237 42) [] v /\
    returns (dipole_mu_physical Stub.distmod Stub.separation
               (21 / 1000) (5 / 100) (275 + 180) (- 56) 237 42) [] v.
Proof.
  apply (negative_amplitude_is_opposite_dipole
           Stub.world Stub.exn Stub.distmod Stub.separation
           (fun z => 0 < z) Stub.mu
           StubFacts.stub_distmod_ok StubFacts.stub_separation_ok);
    [lra | exact stub_dipole_valid | exact stub_target_valid].
Defined.

Lemma longitude_is_periodic_witness :
  exists v,
    returns (dipole_mu_physical Stub.distmod Stub.separation
               (21 / 1000) (5 / 100) 275 56 237 42) [] v /\
    returns (dipole_mu_physical Stub.distmod Stub.separation
               (21 / 1000) (5 / 100) (275 + 360 * IZR (-1)) 56 237 42)
      [] v /\
    returns (dipole_mu_physical Stub.distmod Stub.separation
               (21 / 1000) (5 / 100) 275 56 (237 + 360 * IZR (-1)) 42)
      [] v.
Proof.
  apply (longitude_is_periodic
           Stub.world Stub.exn Stub.distmod Stub.separation
           (fun z => 0 < z) Stub.mu
           StubFacts.stub_distmod_ok StubFacts.stub_separation_ok);
    [lra | exact stub_dipole_valid | exact stub_target_valid].
Defined.

Lemma common_longitude_shift_witness :
  exists v,
    returns (dipole_mu_physical Stub.distmod Stub.separation
               (21 / 1000) (5 / 100) 275 56 237 42) [] v /\
    returns (dipole_mu_physical Stub.distmod Stub.separation
               (21 / 1000) (5 / 100) (275 + 30) 56 (237 + 30) 42) [] v.
Proof.
  apply (common_longitude_shift
           Stub.world Stub.exn Stub.distmod Stub.separation
           (fun z => 0 < z) Stub.mu
           StubFacts.stub_distmod_ok StubFacts.stub_separation_ok);
    [lra | exact stub_dipole_valid | exact stub_target_valid].
Defined.

Lemma quarter_turn_gives_background_witness :
  (forall l0 b0 l_sn b_sn,
     valid_dir (mkSkyCoord l0 b0 galactic) ->
     valid_dir (mkSkyCoord l_sn b_sn galactic) ->
     great_circle (mkSkyCoord l_sn b_sn galactic)
                  (mkSkyCoord l0 b0 galactic) = PI / 2 ->
     returns (dipole_mu_physical Stub.distmod Stub.separation
                (21 / 1000) (5 / 100) l0 b0 l_sn b_sn) []
       (Stub.mu (21 / 1000))) /\
  (forall l0 l_sn,
     returns (dipole_mu_physical Stub.distmod Stub.separation
                (21 / 1000) (5 / 100) l0 0 l_sn 90) []
       (Stub.mu (21 / 1000))).
Proof.
  apply (quarter_turn_gives_background
           Stub.world Stub.exn Stub.distmod Stub.separation
           (fun z => 0 < z) Stub.mu
           StubFacts.stub_distmod_ok StubFacts.stub_separation_ok).
  lra.
Defined.

Lemma map_is_model_minus_background_witness :
  exists m v,
    returns (dipole_map Stub.separation Stub.nside2npix Stub.pix2ang
               (5 / 100) 275 56 1) [] m /\
    returns (dipole_mu_physical Stub.distmod Stub.separation
               (21 / 1000) (5 / 100) 275 56
               (fst (Stub.centre 1 7)) (snd (Stub.centre 1 7))) [] v /\
    nth 7 m 0 = v - Stub.mu (21 / 1000).
Proof.
  apply (map_is_model_minus_background
           Stub.world Stub.exn Stub.distmod Stub.separation
           Stub.nside2npix Stub.pix2ang
           (fun z => 0 < z) Stub.mu
           StubFacts.stub_distmod_ok StubFacts.stub_separation_ok
           Stub.centre StubFacts.stub_pix2ang_ok
           StubFacts.stub_centre_valid).
  - lra.
  - exact stub_dipole_valid.
  - unfold Stub.nside2npix. simpl. lia.
Defined.

Lemma opposite_pixels_hold_opposite_values_witness :
  exists m,
    returns (dipole_map Stub.separation Stub.nside2npix Stub.pix2ang
               (5 / 100) 275 56 1) [] m /\
    nth 6 m 0 = - nth 4 m 0.
Proof.
  apply (opposite_pixels_hold_opposite_values
           Stub.world Stub.exn Stub.separation Stub.nside2npix Stub.pix2ang
           StubFacts.stub_separation_ok Stub.centre
           StubFacts.stub_pix2ang_ok StubFacts.stub_centre_valid).
  - exact stub_dipole_valid.
  - unfold Stub.nside2npix. simpl. lia.
  - unfold Stub.nside2npix. simpl. lia.
  - exact stub_pixel_6_opposite_pixel_4.
Defined.

Lemma nearer_pixel_holds_more_witness :
  exists m,
    returns (dipole_map Stub.separation Stub.nside2npix Stub.pix2ang
               (5 / 100) 0 0 1) [] m /\
    nth 6 m 0 < nth 4 m 0.
Proof.
  apply (nearer_pixel_holds_more
           Stub.world Stub.exn Stub.separation Stub.nside2npix Stub.pix2ang
           StubFacts.stub_separation_ok Stub.centre
           StubFacts.stub_pix2ang_ok StubFacts.stub_centre_valid).
  - exact stub_origin_valid.
  - unfold Stub.nside2npix. simpl. lia.
  - unfold Stub.nside2npix. simpl. lia.
  - lra.
  - rewrite stub_pixel_6_opposite_pixel_4.
    change (pixel_coord (Stub.centre 1 4)) with (mkSkyCoord 0 0 galactic).
    rewrite great_circle_refl. apply PI_RGT_0.
Defined.

Lemma map_scales_with_amplitude_witness :
  exists m,
    returns (dipole_map Stub.separation Stub.nside2npix Stub.pix2ang
               (5 / 100) 275 56 1) [] m /\
    returns (dipole_map Stub.separation Stub.nside2npix Stub.pix2ang
               (2 * (5 / 100)) 275 56 1) [] (map (Rmult 2) m).
Proof.
  apply (map_scales_with_amplitude
           Stub.world Stub.exn Stub.separation Stub.nside2npix Stub.pix2ang
           StubFacts.stub_separation_ok Stub.centre
           StubFacts.stub_pix2ang_ok StubFacts.stub_centre_valid).
  exact stub_dipole_valid.
Defined.

(** The CMB entry of [dipoles]: l = 264.0, b = 48.3. *)
Lemma dipole_plot_position_in_axes_witness :
  - PI <= fst (dipole_plot_position 264 (483 / 10)) <= PI /\
  - (PI / 2) <= snd (dipole_plot_position 264 (483 / 10)) <= PI / 2.
Proof.
  apply (dipole_plot_position_in_axes 264 (483 / 10)); lra.
Defined.

Lemma figures_differ_by_half_a_turn_witness :
  - PI <= fst (sn_plot_position FigureStub.wrap_at 264 (483 / 10)) < PI /\
  snd (dipole_plot_position 264 (483 / 10))
  = snd (sn_plot_position FigureStub.wrap_at 264 (483 / 10)) /\
  (264 < 180 ->
   fst (sn_plot_position FigureStub.wrap_at 264 (483 / 10)) = deg2rad 264 /\
   fst (dipole_plot_position 264 (483 / 10))
   = fst (sn_plot_position FigureStub.wrap_at 264 (483 / 10)) - PI) /\
  (180 <= 264 ->
   fst (sn_plot_position FigureStub.wrap_at 264 (483 / 10))
   = deg2rad 264 - 2 * PI /\
   fst (dipole_plot_position 264 (483 / 10))
   = fst (sn_plot_position FigureStub.wrap_at 264 (483 / 10)) + PI).
Proof.
  apply (figures_differ_by_half_a_turn FigureStub.wrap_at
           stub_wrap_at_turns stub_wrap_at_range 264 (483 / 10)).
  lra.
Defined.

Lemma marker_is_on_the_dipole_witness :
  0 <= fst (marker_position 275 56) <= PI /\
  ang2vec (fst (marker_position 275 56)) (snd (marker_position 275 56))
  = unit_vector (mkSkyCoord 275 56 galactic) /\
  forall c,
    unit_vector c
    = ang2vec (fst (marker_position 275 56)) (snd (marker_position 275 56)) ->
    great_circle (mkSkyCoord 275 56 galactic) c = 0 /\
    5 / 100 * cos (great_circle (mkSkyCoord 275 56 galactic) c) = 5 / 100.
Proof.
  apply (marker_is_on_the_dipole (5 / 100) 275 56). lra.
Defined.

Lemma sorted_model_curve_keeps_rows_witness :
  exists z_sorted mu_model_sorted,
    sorted_model_curve FigureStub.argsort pantheon_z pantheon_MU
    = Some (z_sorted, mu_model_sorted) /\
    Sorted Rle z_sorted /\
    Permutation (combine pantheon_z pantheon_MU)
                (combine z_sorted mu_model_sorted).
Proof.
  apply (sorted_model_curve_keeps_rows FigureStub.argsort
           pantheon_z pantheon_MU).
  - reflexivity.
  - exact stub_argsort_perm.
  - exact stub_argsort_sorted.
Defined.
